(** * Ratatoskr concurrent channel: a shallow embedding of
      [src/ratatoskr/concurrent.hpp]

    The header defines a mutex-protected single-consumer channel
    ([channel_state], [channel], [sender], [receiver], [shared_receiver],
    [channel_closer]) and a shutdown coordinator ([scheduler]).

    Modelling choices.
    - [std::forward_list] is a sequence of cells; each cell carries the
      identity of its node, so that iterators (node pointers) stay valid
      when other nodes are inserted or erased, exactly as in the STL.
    - Every region guarded by [data_mutex] is one atomic transition on
      [channel_state]; a concurrent execution is a sequence of such
      transitions (module [interleaving]).
    - [condition_variable::wait(lock, pred)] returns only in a state where
      [pred] holds; an attempt in another state is reported as [Blocked]
      and changes nothing.
    - Null or dangling dereferences, and [*opt] on an empty optional, are
      reported as [Undefined].
    - [std::shared_ptr] is an optional address into a heap of control
      blocks that carry the use count. *)

From stdpp Require Import gmap list.

(** ** Outcomes of a call *)

Inductive exn :=
| close_channel
| channel_already_closed
| receiver_already_retrived
| system_error.

Inductive outcome (A : Type) :=
| Ret (a : A)
| Throw (e : exn)
| Blocked
| Undefined.
Arguments Ret {A} a.
Arguments Throw {A} e.
Arguments Blocked {A}.
Arguments Undefined {A}.

(** What a call did to the condition variable after releasing the lock. *)
Inductive signal := NoSignal | NotifyOne | NotifyAll.

(** ** [std::forward_list] *)

Module forward_list.

Definition node := nat.

(** An iterator is a node pointer, or the past-the-end value. *)
Inductive iterator := At (n : node) | End.

(** The cells in list order, each with the identity of its node, and the
    identity the next allocated node will get.  Identities are not reused;
    no reachable state of a channel keeps an iterator to an erased node,
    so a reuse could not be observed. *)
Record t (A : Type) := mk { cells : list (node * A); fresh : node }.
Arguments mk {A} cells fresh.
Arguments cells {A} _.
Arguments fresh {A} _.

Definition first_of {A} (c : list (node * A)) : iterator :=
  match c with
  | [] => End
  | (n, _) :: _ => At n
  end.

(** [forward_list{x}]: one node. *)
Definition singleton {A} (x : A) : t A := mk [(0, x)] 1.

Definition begin {A} (l : t A) : iterator := first_of (cells l).

(** [++it] for an iterator into the list; [None] when [it] does not
    point to a node of the list. *)
Fixpoint succ_in {A} (c : list (node * A)) (n : node) : option iterator :=
  match c with
  | [] => None
  | (m, _) :: rest =>
      if decide (m = n) then Some (first_of rest) else succ_in rest n
  end.

Definition incr {A} (l : t A) (it : iterator) : option iterator :=
  match it with
  | At n => succ_in (cells l) n
  | End => None
  end.

(** [*it]. *)
Fixpoint value_in {A} (c : list (node * A)) (n : node) : option A :=
  match c with
  | [] => None
  | (m, a) :: rest => if decide (m = n) then Some a else value_in rest n
  end.

Definition deref {A} (l : t A) (it : iterator) : option A :=
  match it with
  | At n => value_in (cells l) n
  | End => None
  end.

(** [insert_after(it, x)]: a new node right behind [*it]. *)
Fixpoint insert_in {A} (c : list (node * A)) (n : node) (new : node * A)
  : option (list (node * A)) :=
  match c with
  | [] => None
  | (m, a) :: rest =>
      if decide (m = n) then Some ((m, a) :: new :: rest)
      else cons (m, a) <$> insert_in rest n new
  end.

Definition insert_after {A} (l : t A) (it : iterator) (x : A) : option (t A) :=
  match it with
  | At n =>
      match insert_in (cells l) n (fresh l, x) with
      | Some c' => Some (mk c' (S (fresh l)))
      | None => None
      end
  | End => None
  end.

(** [pop_front()]; undefined on an empty list. *)
Definition pop_front {A} (l : t A) : option (t A) :=
  match cells l with
  | [] => None
  | _ :: rest => Some (mk rest (fresh l))
  end.

Definition size {A} (l : t A) : nat := length (cells l).

Definition values {A} (l : t A) : list A := (cells l).*2.

End forward_list.

Abbreviation iterator := forward_list.iterator.
Abbreviation At := forward_list.At.
Abbreviation End := forward_list.End.

(** ** [channel_state<T>] *)

Record channel_state (T : Type) := mk_state {
  has_receiver_v : bool;
  is_closed_v : bool;
  data : forward_list.t (option T);
  last : iterator
}.
Arguments mk_state {T} _ _ _ _.
Arguments has_receiver_v {T} _.
Arguments is_closed_v {T} _.
Arguments data {T} _.
Arguments last {T} _.

(** The constructor's initialiser list is
    [is_closed_v(false), data{std::nullopt}, last(data.begin())]:
    [has_receiver_v] is not mentioned, and [make_shared<channel_state<T>>()]
    runs this user-provided constructor without zeroing the storage first.
    The flag therefore starts with whatever the storage held; that value is
    the argument [storage]. *)
Definition new_channel_state {T} (storage : bool) : channel_state T :=
  let d := forward_list.singleton None in
  mk_state storage false d (forward_list.begin d).

(** *** The regions guarded by [data_mutex] *)

(** Body shared by [channel::push] and [sender::push] (both overloads). *)
Definition push_body {T} (x : T) (st : channel_state T)
  : outcome signal * channel_state T :=
  if negb (has_receiver_v st) then (Ret NoSignal, st)
  else
    match forward_list.insert_after (data st) (last st) (Some x) with
    | None => (Undefined, st)
    | Some d' =>
        match forward_list.incr d' (last st) with
        | None => (Undefined, st)
        | Some l' =>
            (Ret NotifyOne,
             mk_state (has_receiver_v st) (is_closed_v st) d' l')
        end
    end.

(** Body shared by [channel::close], [sender::close] and
    [channel_closer::close]. *)
Definition close_body {T} (st : channel_state T)
  : outcome signal * channel_state T :=
  (Ret NotifyAll, mk_state (has_receiver_v st) true (data st) (last st)).

(** Body of [sender::sender(state)]. *)
Definition sender_body {T} (st : channel_state T)
  : outcome unit * channel_state T :=
  if is_closed_v st then (Throw channel_already_closed, st)
  else (Ret tt, st).

(** [receiver::receiver(state)], first region: the member initialiser
    [iterator((std::lock_guard{state->data_mutex}, state->last))]. *)
Definition receiver_snapshot {T} (st : channel_state T)
  : outcome iterator * channel_state T :=
  (Ret (last st), st).

(** [receiver::receiver(state)], second region: the constructor body. *)
Definition receiver_body {T} (st : channel_state T)
  : outcome unit * channel_state T :=
  if has_receiver_v st then (Throw receiver_already_retrived, st)
  else if is_closed_v st then (Throw channel_already_closed, st)
  else (Ret tt, mk_state true (is_closed_v st) (data st) (last st)).

(** The predicate handed to [notifier.wait] in [receiver::next]:
    [++next != state->data.end() || state->is_closed_v]. *)
Definition next_pred {T} (it : iterator) (st : channel_state T) : option bool :=
  match forward_list.incr (data st) it with
  | None => None
  | Some nx =>
      Some (match nx with End => is_closed_v st | At _ => true end)
  end.

(** [receiver::next]: the wait, then the body under the same lock.  The
    result carries the value and the advanced cursor. *)
Definition next_body {T} (it : iterator) (st : channel_state T)
  : outcome (T * iterator) * channel_state T :=
  match next_pred it st with
  | None => (Undefined, st)
  | Some false => (Blocked, st)
  | Some true =>
      if is_closed_v st then (Throw close_channel, st)
      else
        match forward_list.incr (data st) it with
        | None => (Undefined, st)
        | Some it' =>
            match forward_list.pop_front (data st) with
            | None => (Undefined, st)
            | Some d' =>
                match forward_list.deref d' it' with
                | Some (Some v) =>
                    (Ret (v, it'),
                     mk_state (has_receiver_v st) (is_closed_v st) d' (last st))
                | _ => (Undefined, st)
                end
            end
        end
  end.

(** [receiver::operator*]: [return *iterator;]. *)
Definition peek_body {T} (it : iterator) (st : channel_state T)
  : outcome (option T) * channel_state T :=
  match forward_list.deref (data st) it with
  | Some o => (Ret o, st)
  | None => (Undefined, st)
  end.

(** ** Calls that act on a state

    A call on a state [S] yields an outcome and the state it leaves
    behind.  A sequence of calls ends at the first one that does not return
    normally. *)

Definition eff (S A : Type) : Type := S → outcome A * S.

#[global] Instance eff_ret {S} : MRet (eff S) := λ _ a s, (Ret a, s).

#[global] Instance eff_bind {S} : MBind (eff S) := λ _ _ k m s,
  match m s with
  | (Ret a, s') => k a s'
  | (Throw e, s') => (Throw e, s')
  | (Blocked, s') => (Blocked, s')
  | (Undefined, s') => (Undefined, s')
  end.

Definition throw {S A} (e : exn) : eff S A := λ s, (Throw e, s).

Definition undefined {S A} : eff S A := λ s, (Undefined, s).

Definition suspended {S A} : eff S A := λ s, (Blocked, s).

Definition gets {S A} (f : S → A) : eff S A := λ s, (Ret (f s), s).

Definition modify {S} (f : S → S) : eff S unit := λ s, (Ret tt, f s).

(** Stack unwinding: when [m] throws, [cleanup] (the destructors of what
    had been constructed) runs before the exception leaves. *)
Definition unwinding {S A} (cleanup : S → S) (m : eff S A) : eff S A := λ s,
  match m s with
  | (Throw e, s') => (Throw e, cleanup s')
  | r => r
  end.

(** ** [std::shared_ptr<channel_state<T>>] *)

(** A shared pointer is null or the address of a control block. *)
Definition shared_ptr := option nat.

Record control_block (T : Type) := mk_block {
  use_count : nat;
  obj : channel_state T
}.
Arguments mk_block {T} _ _.
Arguments use_count {T} _.
Arguments obj {T} _.

Abbreviation heap T := (gmap nat (control_block T)).

(** [p.use_count()]. *)
Definition sp_use_count {T} (p : shared_ptr) (h : heap T) : nat :=
  match p with
  | None => 0
  | Some a =>
      match h !! a with
      | Some cb => use_count cb
      | None => 0
      end
  end.

(** Copy construction of a shared pointer. *)
Definition sp_copy {T} (p : shared_ptr) (h : heap T) : heap T :=
  match p with
  | None => h
  | Some a =>
      match h !! a with
      | Some cb => <[a := mk_block (S (use_count cb)) (obj cb)]> h
      | None => h
      end
  end.

(** Destruction of a shared pointer; the last owner frees the object. *)
Definition sp_release {T} (p : shared_ptr) (h : heap T) : heap T :=
  match p with
  | None => h
  | Some a =>
      match h !! a with
      | Some cb =>
          if decide (use_count cb ≤ 1) then delete a h
          else <[a := mk_block (use_count cb - 1) (obj cb)]> h
      | None => h
      end
  end.

Definition make_shared {T} (st : channel_state T) : eff (heap T) shared_ptr :=
  λ h, let a := fresh (dom h) in (Ret (Some a), <[a := mk_block 1 st]> h).

(** [state->...]: run a guarded region on the pointee.  Going through a
    null pointer, or one whose object is gone, is undefined. *)
Definition with_state {T A} (p : shared_ptr) (f : eff (channel_state T) A)
  : eff (heap T) A := λ h,
  match p with
  | None => (Undefined, h)
  | Some a =>
      match h !! a with
      | None => (Undefined, h)
      | Some cb =>
          let '(r, st') := f (obj cb) in
          (r, <[a := mk_block (use_count cb) st']> h)
      end
  end.

(** ** [sender<T>] *)

Module sender.

Record t := mk { state : shared_ptr }.

(** [sender() {}] *)
Definition default : t := mk None.

(** [sender(const std::shared_ptr<channel_state<T>> &state) : state(state)]
    and its body; when the body throws, the member is destroyed again. *)
Definition ctor {T} (p : shared_ptr) : eff (heap T) t :=
  _ ← modify (sp_copy p);
  unwinding (sp_release p)
    (_ ← with_state p sender_body;
     mret (mk p)).

Definition avail {T} (s : t) : eff (heap T) bool :=
  gets (λ h, bool_decide (sp_use_count (state s) h ≠ 0)).

Definition push {T} (s : t) (x : T) : eff (heap T) signal :=
  with_state (state s) (push_body x).

Definition close {T} (s : t) : eff (heap T) signal :=
  with_state (state s) close_body.

End sender.

(** ** [receiver<T>] *)

Module receiver.

Record t := mk { state : shared_ptr; iterator : forward_list.iterator }.

(** [receiver() {}]: a null pointer and a default-constructed iterator
    (a null node pointer, which is also how [end()] is represented). *)
Definition default : t := mk None End.

(** [receiver(const std::shared_ptr<channel_state<T>> &state)], run
    without interference between its two guarded regions. *)
Definition ctor {T} (p : shared_ptr) : eff (heap T) t :=
  _ ← modify (sp_copy p);
  unwinding (sp_release p)
    (it ← with_state p receiver_snapshot;
     _ ← with_state p receiver_body;
     mret (mk p it)).

Definition avail {T} (r : t) : eff (heap T) bool :=
  gets (λ h, bool_decide (sp_use_count (state r) h ≠ 0)).

(** [T next()].  The call advances the receiver's own cursor, so it
    returns the value together with the receiver as the call leaves it;
    a call that does not return leaves the receiver as it was. *)
Definition next {T} (r : t) : eff (heap T) (T * t) :=
  '(v, it') ← with_state (state r) (next_body (iterator r));
  mret (v, mk (state r) it').

(** [std::optional<T> operator*()]; the receiver itself is only read. *)
Definition peek {T} (r : t) : eff (heap T) (option T) :=
  with_state (state r) (peek_body (iterator r)).

End receiver.

(** ** [shared_receiver<T>] *)

Module shared_receiver.

(** [std::shared_ptr<receiver<T>>]: an address in a store of receivers. *)
Record t := mk { receiver_ : option nat }.

Abbreviation store := (gmap nat receiver.t).

(** [shared_receiver(receiver<T> &&)]:
    [make_shared<receiver<T>>(std::move(receiver_))].  The result comes
    with the moved-from receiver, which keeps its cursor and loses its
    pointer. *)
Definition ctor (r : receiver.t) : eff store (t * receiver.t) :=
  λ rs, let a := fresh (dom rs) in
        (Ret (mk (Some a), receiver.mk None (receiver.iterator r)),
         <[a := r]> rs).

(** [receiver_->]. *)
Definition pointee {T} (sr : t) : eff (store * heap T) (nat * receiver.t) :=
  λ s, match receiver_ sr with
       | None => (Undefined, s)
       | Some a =>
           match s.1 !! a with
           | None => (Undefined, s)
           | Some r => (Ret (a, r), s)
           end
       end.

Definition on_heap {T A} (m : eff (heap T) A) : eff (store * heap T) A :=
  λ s, let '(o, h') := m s.2 in (o, (s.1, h')).

Definition next {T} (sr : t) : eff (store * heap T) T :=
  '(a, r) ← pointee sr;
  '(v, r') ← on_heap (receiver.next r);
  _ ← modify (λ s : store * heap T, (<[a := r']> s.1, s.2));
  mret v.

Definition peek {T} (sr : t) : eff (store * heap T) (option T) :=
  '(a, r) ← pointee sr;
  on_heap (receiver.peek r).

End shared_receiver.

(** [receiver::share()]: the receiver itself is moved into a new
    [shared_receiver<T>]. *)
Definition share (r : receiver.t)
  : eff shared_receiver.store (shared_receiver.t * receiver.t) :=
  shared_receiver.ctor r.

(** ** [channel_closer] *)

Module channel_closer.

(** The members [is_closed_v], [data_mutex] and [notifier] are references
    into the object that [reference_counter] keeps alive. *)
Record t := mk { reference_counter : shared_ptr }.

(** [channel_closer(state) : reference_counter(state),
    is_closed_v(state->is_closed_v), ...]: binding the references goes
    through the pointer. *)
Definition ctor {T} (p : shared_ptr) : eff (heap T) t :=
  _ ← modify (sp_copy p);
  _ ← with_state p (λ st : channel_state T, (Ret tt, st));
  mret (mk p).

Definition close {T} (c : t) : eff (heap T) signal :=
  with_state (reference_counter c) close_body.

End channel_closer.

(** ** [channel<T>] *)

Module channel.

Record t := mk { state : shared_ptr }.

(** [channel() : state(std::make_shared<channel_state<T>>()) {}] *)
Definition ctor {T} (storage : bool) : eff (heap T) t :=
  p ← make_shared (new_channel_state storage);
  mret (mk p).

Definition get_sender {T} (ch : t) : eff (heap T) sender.t :=
  sender.ctor (state ch).

Definition get_receiver {T} (ch : t) : eff (heap T) receiver.t :=
  receiver.ctor (state ch).

Definition get_closer {T} (ch : t) : eff (heap T) channel_closer.t :=
  channel_closer.ctor (state ch).

Definition push {T} (ch : t) (x : T) : eff (heap T) signal :=
  with_state (state ch) (push_body x).

Definition close {T} (ch : t) : eff (heap T) signal :=
  with_state (state ch) close_body.

End channel.

(** [make_channel<T>()]: a local channel, the pair built left to right,
    then the local channel destroyed; an exception destroys what had been
    built, newest first. *)
Definition make_channel {T} (storage : bool)
  : eff (heap T) (sender.t * receiver.t) :=
  ch ← channel.ctor storage;
  unwinding (sp_release (channel.state ch))
    (sn ← channel.get_sender ch;
     rc ← unwinding (sp_release (sender.state sn)) (channel.get_receiver ch);
     _ ← modify (sp_release (channel.state ch));
     mret (sn, rc)).

(** ** [scheduler] *)

Module scheduler.

(** [std::thread]: the id of the thread it can join, or not joinable. *)
Definition thread := option nat.

Record t := mk {
  closers : list channel_closer.t;
  threads : list thread;
  is_closed_v : bool
}.

(** A scheduler together with what it acts on: the channels behind its
    closers (of one payload type [T]) and the threads joined so far,
    oldest first. *)
Record world (T : Type) := mk_world {
  self : t;
  chans : heap T;
  joined : list nat
}.
Arguments mk_world {T} _ _ _.
Arguments self {T} _.
Arguments chans {T} _.
Arguments joined {T} _.

(** [scheduler() : is_closed_v(false) {}] *)
Definition ctor : t := mk [] [] false.

Definition on_self {T} (f : t → t) : eff (world T) unit :=
  modify (λ w, mk_world (f (self w)) (chans w) (joined w)).

Definition on_chans {T A} (m : eff (heap T) A) : eff (world T) A :=
  λ w, let '(o, h') := m (chans w) in (o, mk_world (self w) h' (joined w)).

(** [th.join()]: returns once the thread has finished, leaving [th] not
    joinable; throws on a thread that is not joinable. *)
Definition join {T} (th : thread) : eff (world T) thread :=
  match th with
  | None => throw system_error
  | Some i =>
      _ ← modify (λ w, mk_world (self w) (chans w) (joined w ++ [i]));
      mret None
  end.

(** [for (auto &&c : closers) c.close();] *)
Fixpoint close_all {T} (cs : list channel_closer.t) : eff (world T) unit :=
  match cs with
  | [] => mret tt
  | c :: rest =>
      _ ← on_chans (channel_closer.close c);
      close_all rest
  end.

(** [for (auto &&th : ths) th.join();] *)
Fixpoint join_all {T} (ths : list thread) : eff (world T) (list thread) :=
  match ths with
  | [] => mret []
  | th :: rest =>
      th' ← join th;
      rest' ← join_all rest;
      mret (th' :: rest')
  end.

Definition halt {T} : eff (world T) signal :=
  _ ← on_self (λ s, mk (closers s) (threads s) true);
  cs ← gets (λ w, closers (self w));
  _ ← close_all cs;
  mret NotifyAll.

(** [connect(std::thread &&th, closer)].  [by_move] selects the overload
    taking [channel_closer &&], which moves the closer into the list
    instead of copying it.  The result is the caller's thread object as
    the call leaves it. *)
Definition connect {T} (by_move : bool) (th : thread)
    (closer : channel_closer.t) : eff (world T) thread :=
  halted ← gets (λ w, is_closed_v (self w));
  if halted : bool then
    _ ← on_chans (channel_closer.close closer);
    join th
  else
    _ ← on_self (λ s, mk (closers s) (th :: threads s) (is_closed_v s));
    _ ← (if by_move then mret tt
         else on_chans
                (modify (sp_copy (channel_closer.reference_counter closer))));
    _ ← on_self (λ s, mk (closer :: closers s) (threads s) (is_closed_v s));
    mret None.

(** [connect(std::forward_list<std::thread> &ths, closer)] (and the
    overload taking the list by rvalue reference, whose body is the
    same).  The result is the caller's list as the call leaves it; when a
    join throws, the threads joined before it are on record in [joined]. *)
Definition connect_list {T} (ths : list thread) (closer : channel_closer.t)
  : eff (world T) (list thread) :=
  halted ← gets (λ w, is_closed_v (self w));
  if halted : bool then
    _ ← on_chans (channel_closer.close closer);
    join_all ths
  else
    _ ← on_self (λ s, mk (closers s) (ths ++ threads s) (is_closed_v s));
    _ ← on_chans (modify (sp_copy (channel_closer.reference_counter closer)));
    _ ← on_self (λ s, mk (closer :: closers s) (threads s) (is_closed_v s));
    mret [].

(** [for (auto &&th : threads) th.join();] on the stored threads, each
    left not joinable in its place. *)
Fixpoint join_stored {T} (i : nat) (ths : list thread) : eff (world T) unit :=
  match ths with
  | [] => mret tt
  | th :: rest =>
      th' ← join th;
      _ ← on_self (λ s, mk (closers s) (<[i := th']> (threads s))
                           (is_closed_v s));
      join_stored (S i) rest
  end.

(** [wait()]: suspended until [is_closed_v], then joins every stored
    thread. *)
Definition wait {T} : eff (world T) unit :=
  halted ← gets (λ w, is_closed_v (self w));
  if halted : bool then
    ths ← gets (λ w, threads (self w));
    join_stored 0 ths
  else suspended.

End scheduler.

(** ** Concurrent executions of one channel

    Threads meet only inside the regions guarded by [data_mutex], so an
    execution is a sequence of those regions.  A receiver constructor takes
    the lock twice and may be overtaken in between; [k] names the
    constructor call and, when it succeeds, the receiver it built. *)

Module interleaving.

Inductive event (T : Type) :=
| Push (x : T)          (* sender::push or channel::push *)
| Close                 (* sender::close, channel::close, channel_closer::close *)
| NewSender             (* sender::sender *)
| Snapshot (k : nat)    (* receiver::receiver, member initialiser *)
| Register (k : nat)    (* receiver::receiver, body *)
| Next (k : nat)        (* receiver::next *)
| Peek (k : nat).       (* receiver::operator* *)
Arguments Push {T} x.
Arguments Close {T}.
Arguments NewSender {T}.
Arguments Snapshot {T} k.
Arguments Register {T} k.
Arguments Next {T} k.
Arguments Peek {T} k.

(** What the calling thread sees. *)
Inductive obs (T : Type) :=
| Done (s : signal)       (* returned; [s] is the notification it issued *)
| Item (x : T)            (* next() returned x *)
| Peeked (o : option T)   (* operator* returned o *)
| Threw (e : exn)
| Suspended               (* still inside notifier.wait *)
| UB
| NoHandle.               (* no such constructor call or receiver *)
Arguments Done {T} s.
Arguments Item {T} x.
Arguments Peeked {T} o.
Arguments Threw {T} e.
Arguments Suspended {T}.
Arguments UB {T}.
Arguments NoHandle {T}.

Record world (T : Type) := mk {
  shared : channel_state T;
  pending : gmap nat iterator;   (* constructors between their two regions *)
  handles : gmap nat iterator    (* cursors of the constructed receivers *)
}.
Arguments mk {T} _ _ _.
Arguments shared {T} _.
Arguments pending {T} _.
Arguments handles {T} _.

Definition init {T} (storage : bool) : world T :=
  mk (new_channel_state storage) ∅ ∅.

(** How a call that returned nothing of interest, or did not return,
    shows to its caller. *)
Definition report {T A} (o : outcome A) : obs T :=
  match o with
  | Ret _ => Done NoSignal
  | Throw e => Threw e
  | Blocked => Suspended
  | Undefined => UB
  end.

Definition step {T} (e : event T) (w : world T) : obs T * world T :=
  match e with
  | Push x =>
      match push_body x (shared w) with
      | (Ret s, st') => (Done s, mk st' (pending w) (handles w))
      | (o, st') => (report o, mk st' (pending w) (handles w))
      end
  | Close =>
      match close_body (shared w) with
      | (Ret s, st') => (Done s, mk st' (pending w) (handles w))
      | (o, st') => (report o, mk st' (pending w) (handles w))
      end
  | NewSender =>
      let '(o, st') := sender_body (shared w) in
      (report o, mk st' (pending w) (handles w))
  | Snapshot k =>
      match receiver_snapshot (shared w) with
      | (Ret it, st') =>
          (Done NoSignal, mk st' (<[k := it]> (pending w)) (handles w))
      | (o, st') => (report o, mk st' (pending w) (handles w))
      end
  | Register k =>
      match pending w !! k with
      | None => (NoHandle, w)
      | Some it =>
          match receiver_body (shared w) with
          | (Ret _, st') =>
              (Done NoSignal,
               mk st' (delete k (pending w)) (<[k := it]> (handles w)))
          | (o, st') => (report o, mk st' (delete k (pending w)) (handles w))
          end
      end
  | Next k =>
      match handles w !! k with
      | None => (NoHandle, w)
      | Some it =>
          match next_body it (shared w) with
          | (Ret (v, it'), st') =>
              (Item v, mk st' (pending w) (<[k := it']> (handles w)))
          | (o, st') => (report o, mk st' (pending w) (handles w))
          end
      end
  | Peek k =>
      match handles w !! k with
      | None => (NoHandle, w)
      | Some it =>
          match peek_body it (shared w) with
          | (Ret o, st') => (Peeked o, mk st' (pending w) (handles w))
          | (o, st') => (report o, mk st' (pending w) (handles w))
          end
      end
  end.

(** Run a schedule; the observations come out in schedule order. *)
Fixpoint run {T} (tr : list (event T)) (w : world T) : list (obs T) * world T :=
  match tr with
  | [] => ([], w)
  | e :: rest =>
      let '(o, w1) := step e w in
      let '(os, w2) := run rest w1 in
      (o :: os, w2)
  end.

(** The values handed to [push], and the values [next] returned. *)
Definition pushed {T} (tr : list (event T)) : list T :=
  omap (λ e, match e with Push x => Some x | _ => None end) tr.

Definition received {T} (os : list (obs T)) : list T :=
  omap (λ o, match o with Item x => Some x | _ => None end) os.

(** The values that [push] appended: exactly the calls that went on to
    [notify_one]. *)
Definition appended {T} (tr : list (event T)) (os : list (obs T)) : list T :=
  omap (λ '(e, o),
          match e, o with
          | Push x, Done NotifyOne => Some x
          | _, _ => None
          end) (zip tr os).

(** The optionals [operator*] returned. *)
Definition peeked {T} (os : list (obs T)) : list (option T) :=
  omap (λ o, match o with Peeked v => Some v | _ => None end) os.

End interleaving.

(** ** Invariants of the reachable states *)

Module invariant.
Import interleaving.

(** The shape of the queue: a head slot followed by slots that all hold
    a value, [last] pointing to the final node, node identities distinct
    and older than the next one to be allocated. *)
Definition queue_ok {T} (st : channel_state T) : Prop :=
  ∃ n0 v0 rest pre nl vl,
    forward_list.cells (data st) = (n0, v0) :: rest ∧
    forward_list.cells (data st) = pre ++ [(nl, vl)] ∧
    last st = At nl ∧
    NoDup (forward_list.cells (data st)).*1 ∧
    Forall (λ n, n < forward_list.fresh (data st))
           (forward_list.cells (data st)).*1 ∧
    Forall (λ c : nat * option T, is_Some c.2) rest.

(** A receiver's cursor is the head of the list, there is at most one
    receiver, and while [has_receiver_v] is unset the list is still the
    initial one and every snapshot taken is still the tail. *)
Definition world_ok {T} (w : world T) : Prop :=
  queue_ok (shared w) ∧
  (∀ k it, handles w !! k = Some it →
     it = forward_list.begin (data (shared w)) ∧
     has_receiver_v (shared w) = true ∧
     ∀ k', is_Some (handles w !! k') → k' = k) ∧
  (has_receiver_v (shared w) = false →
     data (shared w) = forward_list.singleton None ∧
     ∀ k it, pending w !! k = Some it → it = last (shared w)).

(** The slots behind the head: pushed and not yet consumed. *)
Definition unread {T} (st : channel_state T) : list (option T) :=
  tail (forward_list.values (data st)).

(** The content of the head slot. *)
Definition head_slot {T} (st : channel_state T) : option (option T) :=
  head (forward_list.values (data st)).

End invariant.

(** ** Two readings of the specification, for comparison with the code *)

(** The length law with every value handed to [push] counted as pushed:
    list length = pushed - consumed + 1, written without subtraction. *)
Definition length_law_counting_every_push {T} (storage : bool)
    (tr : list (interleaving.event T)) : Prop :=
  forward_list.size
    (data (interleaving.shared
             (interleaving.run tr (interleaving.init storage)).2))
  + length (interleaving.received
              (interleaving.run tr (interleaving.init storage)).1)
  = length (interleaving.pushed tr) + 1.

(** [avail] as the only operation that is defined on a detached handle:
    every other member operation of a default-constructed sender or
    receiver is undefined. *)
Definition only_avail_defined_when_detached (T : Type) : Prop :=
  (∀ (x : T) (h : heap T), (sender.push sender.default x h).1 = Undefined) ∧
  (∀ h : heap T, (sender.close sender.default h).1 = Undefined) ∧
  (∀ h : heap T, (receiver.next receiver.default h).1 = Undefined) ∧
  (∀ h : heap T, (receiver.peek receiver.default h).1 = Undefined) ∧
  (∀ rs : shared_receiver.store,
     (share receiver.default rs).1 = Undefined).

(** ** [make_channel<T>(with_shared_receiver)] *)

Definition on_store {T A} (m : eff shared_receiver.store A)
  : eff (shared_receiver.store * heap T) A :=
  λ s, let '(o, rs') := m s.1 in (o, (rs', s.2)).

(** [channel<T> ch;
     return std::pair{ch.get_sender(), ch.get_receiver().share()};]
    The temporary receiver is moved from by [share] and then destroyed;
    the local channel is destroyed on the way out. *)
Definition make_channel_shared {T} (storage : bool)
  : eff (shared_receiver.store * heap T) (sender.t * shared_receiver.t) :=
  ch ← shared_receiver.on_heap (channel.ctor storage);
  unwinding (λ s, (s.1, sp_release (channel.state ch) s.2))
    (sn ← shared_receiver.on_heap (channel.get_sender ch);
     sr ← unwinding (λ s, (s.1, sp_release (sender.state sn) s.2))
            (rc ← shared_receiver.on_heap (channel.get_receiver ch);
             '(sr, rc') ← on_store (share rc);
             _ ← shared_receiver.on_heap
                   (modify (sp_release (receiver.state rc')));
             mret sr);
     _ ← shared_receiver.on_heap (modify (sp_release (channel.state ch)));
     mret (sn, sr)).

(** ** Vocabulary for the scheduler's channels *)

(** The closer's pointer leads to a channel state that is still there. *)
Definition closer_live {T} (h : heap T) (c : channel_closer.t) : Prop :=
  ∃ a, channel_closer.reference_counter c = Some a ∧ is_Some (h !! a).

(** The same control block with the channel closed. *)
Definition closed_block {T} (cb : control_block T) : control_block T :=
  mk_block (use_count cb) (close_body (obj cb)).2.

(** [h'] is [h] with exactly the channels behind the closers [cs] closed. *)
Definition closed_behind {T} (cs : list channel_closer.t) (h h' : heap T)
  : Prop :=
  ∀ a, h' !! a
       = (λ cb, if decide (Some a ∈ channel_closer.reference_counter <$> cs)
                then closed_block cb else cb) <$> h !! a.

(** The channel behind the closer is there and closed. *)
Definition closer_closed {T} (h : heap T) (c : channel_closer.t) : Prop :=
  ∃ a cb, channel_closer.reference_counter c = Some a ∧
          h !! a = Some cb ∧ is_closed_v (obj cb) = true.

(** ** Bookkeeping for executions *)

(** The receiver constructors that returned normally, in schedule order. *)
Definition registrations {T} (tr : list (interleaving.event T))
    (os : list (interleaving.obs T)) : list nat :=
  omap (λ '(e, o),
          match e, o with
          | interleaving.Register k, interleaving.Done _ => Some k
          | _, _ => None
          end) (zip tr os).

(** * Properties *)

(** Unfold the sequencing of calls. *)
Ltac run_eff :=
  unfold mbind, eff_bind, mret, eff_ret, modify, gets, throw, undefined,
    suspended, unwinding.

(** ** [forward_list] *)

Section forward_list_facts.
Context {A : Type}.
Implicit Types (c pre : list (forward_list.node * A)) (n : forward_list.node).

Lemma insert_in_tail pre n a new :
  n ∉ pre.*1 →
  forward_list.insert_in (pre ++ [(n, a)]) n new
  = Some (pre ++ [(n, a); new]).
Proof.
  induction pre as [|[m b] pre IH]; simpl; intros Hn.
  - by rewrite decide_True.
  - apply not_elem_of_cons in Hn as [Hne Hn].
    rewrite decide_False by congruence.
    by rewrite IH.
Qed.

Lemma succ_in_before_tail pre n a m b :
  n ∉ pre.*1 →
  forward_list.succ_in (pre ++ [(n, a); (m, b)]) n = Some (At m).
Proof.
  induction pre as [|[m' b'] pre IH]; simpl; intros Hn.
  - by rewrite decide_True.
  - apply not_elem_of_cons in Hn as [Hne Hn].
    rewrite decide_False by congruence. auto.
Qed.

Lemma snoc_not_in pre n a :
  NoDup (pre ++ [(n, a)]).*1 → n ∉ pre.*1.
Proof.
  rewrite fmap_app. simpl. intros Hnd.
  apply NoDup_app in Hnd as (_ & Hdisj & _).
  intros Hin. apply (Hdisj _ Hin). left.
Qed.

Lemma cons_snoc_inv (x y : forward_list.node * A) rest pre :
  x :: rest = pre ++ [y] →
  (rest = [] ∧ pre = [] ∧ x = y) ∨
  (∃ pre', pre = x :: pre' ∧ rest = pre' ++ [y]).
Proof.
  destruct pre as [|z pre]; simpl; intros H; inversion H; subst.
  - left. done.
  - right. by eexists.
Qed.

End forward_list_facts.

(** ** The guarded regions preserve the shape of the queue *)

Section regions.
Context {T : Type}.
Implicit Types (st : channel_state T) (x : T) (it : iterator).
Import invariant.

Lemma new_channel_state_ok storage :
  queue_ok (new_channel_state (T := T) storage).
Proof.
  exists 0, None, [], [], 0, None. simpl.
  repeat split; try apply NoDup_singleton; repeat constructor.
Qed.

Lemma push_body_dropped x st :
  has_receiver_v st = false → push_body x st = (Ret NoSignal, st).
Proof. unfold push_body. by intros ->. Qed.

Lemma push_body_appends x st :
  queue_ok st → has_receiver_v st = true →
  ∃ st',
    push_body x st = (Ret NotifyOne, st') ∧
    queue_ok st' ∧
    forward_list.cells (data st')
    = forward_list.cells (data st)
        ++ [(forward_list.fresh (data st), Some x)] ∧
    has_receiver_v st' = true ∧
    is_closed_v st' = is_closed_v st.
Proof.
  intros (n0 & v0 & rest & pre & nl & vl & Hc & Hs & Hl & Hnd & Hf & Hv) Hr.
  destruct st as [hr cl [c f] l]; simpl in *. rewrite Hs in Hc. subst hr l c.
  assert (Hnl : nl ∉ pre.*1) by by apply (snoc_not_in _ _ vl).
  assert (Hfresh : f ∉ (pre ++ [(nl, vl)]).*1).
  { intros Hin. rewrite Forall_forall in Hf. specialize (Hf _ Hin). lia. }
  assert (E : pre ++ [(nl, vl); (f, Some x)]
              = (pre ++ [(nl, vl)]) ++ [(f, Some x)])
    by by rewrite <- app_assoc.
  unfold push_body, forward_list.insert_after, forward_list.incr. simpl.
  rewrite insert_in_tail by done. simpl.
  rewrite succ_in_before_tail by done.
  eexists. split; [reflexivity|]. simpl.
  split; [|by rewrite E].
  exists n0, v0, (rest ++ [(f, Some x)]), (pre ++ [(nl, vl)]), f, (Some x).
  simpl. rewrite E. repeat split.
  - by rewrite Hc.
  - rewrite fmap_app. simpl. apply NoDup_app. split; [done|]. split.
    + intros y Hy Hy'. apply list_elem_of_singleton in Hy'. by subst.
    + apply NoDup_singleton.
  - rewrite fmap_app. simpl. apply Forall_app. split.
    + eapply Forall_impl; [exact Hf|]. simpl. intros; lia.
    + repeat constructor.
  - apply Forall_app. split; [done|]. repeat constructor. by eexists.
Qed.

Lemma close_body_ok st :
  queue_ok st → queue_ok (close_body st).2.
Proof. by destruct st. Qed.

(** From the head of a well-shaped queue, [++it] is defined. *)
Lemma incr_begin st n0 v0 rest :
  forward_list.cells (data st) = (n0, v0) :: rest →
  forward_list.begin (data st) = At n0 ∧
  forward_list.incr (data st) (At n0) = Some (forward_list.first_of rest).
Proof.
  intros Hc. unfold forward_list.begin, forward_list.incr.
  rewrite Hc. simpl. by rewrite decide_True.
Qed.

(** A closed channel makes [next] throw, whatever the queue holds. *)
Lemma next_body_closed it st nx :
  forward_list.incr (data st) it = Some nx →
  is_closed_v st = true →
  next_body it st = (Throw close_channel, st).
Proof.
  intros Hi Hc. unfold next_body, next_pred. rewrite Hi, Hc.
  by destruct nx.
Qed.

(** An open channel with nothing behind the cursor keeps [next] waiting. *)
Lemma next_body_empty st n0 v0 :
  forward_list.cells (data st) = [(n0, v0)] →
  is_closed_v st = false →
  next_body (At n0) st = (Blocked, st).
Proof.
  intros Hc Hcl. unfold next_body, next_pred.
  destruct (incr_begin st n0 v0 [] Hc) as [_ ->]. simpl. by rewrite Hcl.
Qed.

(** An open channel with a slot behind the cursor: [next] moves the
    cursor there, drops the old head and returns the slot's value. *)
Lemma next_body_takes st n0 v0 n1 o1 rest :
  queue_ok st →
  forward_list.cells (data st) = (n0, v0) :: (n1, o1) :: rest →
  is_closed_v st = false →
  ∃ v st',
    o1 = Some v ∧
    next_body (At n0) st = (Ret (v, At n1), st') ∧
    queue_ok st' ∧
    forward_list.cells (data st') = (n1, Some v) :: rest ∧
    has_receiver_v st' = has_receiver_v st ∧
    is_closed_v st' = false.
Proof.
  intros (m0 & w0 & rest0 & pre & nl & vl & Hc & Hs & Hl & Hnd & Hf & Hv)
         Hc' Hcl.
  rewrite Hc' in Hc. inversion Hc; subst m0 w0 rest0. clear Hc.
  apply Forall_cons in Hv as [[v Hv1] Hv]. simpl in Hv1. subst o1. exists v.
  unfold next_body, next_pred.
  destruct (incr_begin st n0 v0 _ Hc') as [_ ->]. simpl. rewrite Hcl.
  unfold forward_list.pop_front. rewrite Hc'. simpl.
  rewrite decide_True by done.
  eexists. split; [done|]. split; [reflexivity|]. simpl.
  split; [|done].
  rewrite Hs in Hc'. symmetry in Hc'.
  apply cons_snoc_inv in Hc' as [(? & _)|(pre' & -> & Hr)]; [done|].
  rewrite Hs in Hnd, Hf. simpl in Hnd, Hf.
  apply NoDup_cons in Hnd as [_ Hnd]. apply Forall_cons in Hf as [_ Hf].
  exists n1, (Some v), rest, pre', nl, vl. simpl.
  rewrite <- Hr in Hnd, Hf. repeat split; done.
Qed.

Lemma peek_body_head st n0 v0 rest :
  forward_list.cells (data st) = (n0, v0) :: rest →
  peek_body (At n0) st = (Ret v0, st).
Proof.
  intros Hc. unfold peek_body, forward_list.deref. rewrite Hc. simpl.
  by rewrite decide_True.
Qed.

End regions.

(** ** One step of a concurrent execution *)

Section steps.
Context {T : Type}.
Implicit Types (w : interleaving.world T) (e : interleaving.event T).
Import interleaving invariant.

Lemma init_ok storage : world_ok (init (T := T) storage).
Proof.
  split; [apply new_channel_state_ok|]. split.
  - intros k it Hk. simpl in Hk. by rewrite lookup_empty in Hk.
  - intros _. split; [done|]. intros k it Hk. simpl in Hk.
    by rewrite lookup_empty in Hk.
Qed.

(** [push] without the flag: nothing happens. *)
Lemma step_push_dropped x w :
  has_receiver_v (shared w) = false →
  step (Push x) w = (Done NoSignal, w).
Proof.
  intros Hr. unfold step. rewrite push_body_dropped by done. by destruct w.
Qed.

(** [push] with the flag: one more unread slot at the tail. *)
Lemma step_push_appended x w :
  world_ok w → has_receiver_v (shared w) = true →
  ∃ w',
    step (Push x) w = (Done NotifyOne, w') ∧
    world_ok w' ∧
    unread (shared w') = unread (shared w) ++ [Some x] ∧
    head_slot (shared w') = head_slot (shared w) ∧
    forward_list.size (data (shared w'))
    = S (forward_list.size (data (shared w))) ∧
    handles w' = handles w ∧
    has_receiver_v (shared w') = true ∧
    is_closed_v (shared w') = is_closed_v (shared w).
Proof.
  intros (Hq & Hh & Hp) Hr.
  destruct (push_body_appends x _ Hq Hr) as (st' & Hpush & Hq' & Hc & Hr' & Hcl).
  unfold step. rewrite Hpush. eexists. split; [reflexivity|]. simpl.
  destruct Hq as (n0 & v0 & rest & _ & _ & _ & Hc0 & _).
  assert (Hb : forward_list.begin (data st')
               = forward_list.begin (data (shared w))).
  { unfold forward_list.begin. rewrite Hc, Hc0. done. }
  split.
  { split; [exact Hq'|]. split; simpl.
    - intros k it Hk. destruct (Hh k it Hk) as (-> & _ & Hu).
      split; [by rewrite Hb|]. split; [done|exact Hu].
    - intros Hf. congruence. }
  simpl. unfold unread, head_slot, forward_list.values, forward_list.size.
  rewrite Hc, Hc0. simpl. rewrite !fmap_app, length_app. simpl.
  split; [done|]. split; [done|]. split; [lia|]. by repeat split.
Qed.

(** What [next] can do on a receiver of a reachable world. *)
Lemma step_next_cases k it w :
  world_ok w → handles w !! k = Some it →
  (is_closed_v (shared w) = true ∧
   step (Next k) w = (Threw close_channel, w)) ∨
  (is_closed_v (shared w) = false ∧ unread (shared w) = [] ∧
   step (Next k) w = (Suspended, w)) ∨
  (is_closed_v (shared w) = false ∧
   ∃ v w',
     step (Next k) w = (Item v, w') ∧
     world_ok w' ∧
     unread (shared w) = Some v :: unread (shared w') ∧
     head_slot (shared w') = Some (Some v) ∧
     S (forward_list.size (data (shared w')))
     = forward_list.size (data (shared w)) ∧
     is_Some (handles w' !! k) ∧
     has_receiver_v (shared w') = true ∧
     is_closed_v (shared w') = false).
Proof.
  intros (Hq & Hh & Hp) Hk.
  destruct (Hh k it Hk) as (-> & Hr & Hu).
  pose proof Hq as (n0 & v0 & rest & _ & _ & _ & Hc0 & _).
  destruct (incr_begin _ _ _ _ Hc0) as [Hb Hi]. rewrite Hb in *.
  unfold step. rewrite Hk.
  destruct (is_closed_v (shared w)) eqn:Hcl.
  { left. split; [done|].
    rewrite (next_body_closed _ _ _ Hi Hcl). by destruct w. }
  right. destruct rest as [|[n1 o1] rest].
  { left. split; [done|]. split.
    - unfold unread, forward_list.values. by rewrite Hc0.
    - rewrite (next_body_empty _ _ _ Hc0 Hcl). by destruct w. }
  right. split; [done|].
  destruct (next_body_takes _ _ _ _ _ _ Hq Hc0 Hcl)
    as (v & st' & -> & Hn & Hq' & Hc' & Hr' & Hcl').
  rewrite Hn. exists v. eexists. split; [reflexivity|].
  assert (Hb' : forward_list.begin (data st') = At n1).
  { unfold forward_list.begin. by rewrite Hc'. }
  split.
  { split; [exact Hq'|]. split; simpl.
    - intros k2 it2 Hk2.
      assert (k2 = k) as ->.
      { destruct (decide (k2 = k)) as [|Hne]; [done|].
        rewrite lookup_insert_ne in Hk2 by done. apply Hu. by eexists. }
      rewrite lookup_insert_eq in Hk2.
      split; [congruence|]. split; [congruence|].
      intros k' [it' Hk'].
      destruct (decide (k' = k)) as [|Hne]; [done|].
      rewrite lookup_insert_ne in Hk' by done. apply Hu. by eexists.
    - intros Hf. congruence. }
  simpl. unfold unread, head_slot, forward_list.values, forward_list.size.
  rewrite Hc0, Hc'. simpl.
  split; [done|]. split; [done|]. split; [done|].
  split; [rewrite lookup_insert_eq; by eexists|]. split; congruence.
Qed.

(** [operator*] returns the content of the head slot and changes
    nothing. *)
Lemma step_peek k it w :
  world_ok w → handles w !! k = Some it →
  ∃ o, head_slot (shared w) = Some o ∧
       forward_list.deref (data (shared w)) it = Some o ∧
       step (Peek k) w = (Peeked o, w).
Proof.
  intros (Hq & Hh & Hp) Hk.
  destruct (Hh k it Hk) as (-> & Hr & Hu).
  destruct Hq as (n0 & v0 & rest & _ & _ & _ & Hc0 & _).
  destruct (incr_begin _ _ _ _ Hc0) as [Hb _]. rewrite Hb in *.
  exists v0. unfold step. rewrite Hk.
  pose proof (peek_body_head _ _ _ _ Hc0) as Hpk. rewrite Hpk.
  unfold peek_body in Hpk.
  destruct (forward_list.deref (data (shared w)) (At n0)) eqn:Hd;
    [|done]. inversion Hpk; subst.
  unfold head_slot, forward_list.values. rewrite Hc0.
  by destruct w.
Qed.

(** The second region of the receiver constructor. *)
Lemma step_register_cases k it w :
  world_ok w → pending w !! k = Some it →
  (has_receiver_v (shared w) = true ∧
   step (Register k) w
   = (Threw receiver_already_retrived,
      mk (shared w) (delete k (pending w)) (handles w))) ∨
  (has_receiver_v (shared w) = false ∧ is_closed_v (shared w) = true ∧
   step (Register k) w
   = (Threw channel_already_closed,
      mk (shared w) (delete k (pending w)) (handles w))) ∨
  (has_receiver_v (shared w) = false ∧ is_closed_v (shared w) = false ∧
   handles w = ∅ ∧
   it = last (shared w) ∧
   it = forward_list.begin (data (shared w)) ∧
   step (Register k) w
   = (Done NoSignal,
      mk (mk_state true false (data (shared w)) (last (shared w)))
         (delete k (pending w)) {[k := it]})).
Proof.
  intros (Hq & Hh & Hp) Hk. unfold step, receiver_body. rewrite Hk.
  destruct (has_receiver_v (shared w)) eqn:Hr; [by left|]. right.
  destruct (is_closed_v (shared w)) eqn:Hcl; [by left|]. right.
  destruct (Hp eq_refl) as [Hsz Hpend].
  assert (He : handles w = ∅).
  { apply map_eq. intros k'. rewrite lookup_empty.
    destruct (handles w !! k') eqn:Hk'; [|done].
    destruct (Hh _ _ Hk') as (_ & ? & _). congruence. }
  pose proof (Hpend _ _ Hk) as Hit.
  destruct Hq as (n0 & v0 & rest & pre & nl & vl & Hc0 & Hs & Hl & _).
  rewrite Hsz in Hc0. inversion Hc0; subst n0 v0 rest.
  rewrite Hsz in Hs. simpl in Hs. change [(0, None)] with
    ((0, @None T) :: []) in Hs.
  apply cons_snoc_inv in Hs as [(_ & _ & Heq)|(pre' & _ & ?)];
    [|by destruct pre'].
  inversion Heq; subst nl vl.
  repeat split; try done.
  - by rewrite Hsz, Hit, Hl.
  - by rewrite He, insert_empty.
Qed.

Lemma world_ok_fewer_pending st p p' h :
  world_ok (mk st p h) →
  (∀ k it, p' !! k = Some it → p !! k = Some it) →
  world_ok (T := T) (mk st p' h).
Proof.
  intros (Hq & Hh & Hp) Hsub. split; [done|]. split; [done|]. simpl in *.
  intros Hr. destruct (Hp Hr) as [Hsz Hpend]. split; [done|].
  intros k it Hk. eauto.
Qed.

(** Every step keeps the invariant, never runs into undefined
    behaviour, never clears a flag, and moves values through the queue in
    order: an appending [push] adds its value at the tail, a returning
    [next] takes the value right behind the head. *)
Lemma step_ok e w o w' :
  world_ok w → step e w = (o, w') →
  world_ok w' ∧ o ≠ UB ∧
  (has_receiver_v (shared w) = true → has_receiver_v (shared w') = true) ∧
  (is_closed_v (shared w) = true → is_closed_v (shared w') = true) ∧
  (Some <$> received [o]) ++ unread (shared w')
  = unread (shared w) ++ (Some <$> appended [e] [o]) ∧
  (has_receiver_v (shared w) = true → appended [e] [o] = pushed [e]) ∧
  (∀ v, o = Peeked v → head_slot (shared w) = Some v) ∧
  (head_slot (shared w') = head_slot (shared w) ∨
   ∃ x, o = Item x ∧ head_slot (shared w') = Some (Some x)).
Proof.
  intros Hok Hstep. destruct e as [x| | |k|k|k|k].
  - (* Push *)
    destruct (has_receiver_v (shared w)) eqn:Hr.
    + destruct (step_push_appended x w Hok Hr)
        as (w1 & Hs & Hok' & Hu & Hh & _ & _ & Hr' & Hcl).
      rewrite Hs in Hstep. inversion Hstep; subst o w'. simpl.
      rewrite Hu. split; [done|]. repeat split; auto; congruence.
    + rewrite (step_push_dropped x w Hr) in Hstep.
      inversion Hstep; subst o w'. simpl. rewrite app_nil_r.
      split; [done|]. repeat split; auto; congruence.
  - (* Close *)
    simpl in Hstep. inversion Hstep; subst o w'. simpl.
    rewrite app_nil_r. destruct Hok as (Hq & Hh & Hp).
    split; [|repeat split; auto; congruence].
    split; [by apply (close_body_ok (shared w))|done].
  - (* NewSender *)
    simpl in Hstep. unfold sender_body in Hstep.
    assert (w' = w ∧ (o = Done NoSignal ∨ o = Threw channel_already_closed))
      as [-> Ho].
    { destruct (is_closed_v (shared w)); inversion Hstep; subst;
        destruct w; auto. }
    split; [done|].
    destruct Ho as [-> | ->]; simpl; rewrite app_nil_r;
      repeat split; auto; congruence.
  - (* Snapshot *)
    simpl in Hstep. inversion Hstep; subst o w'. simpl.
    rewrite app_nil_r. destruct Hok as (Hq & Hh & Hp).
    split; [|repeat split; auto; congruence].
    split; [done|]. split; [done|]. simpl. intros Hr.
    destruct (Hp Hr) as [Hsz Hpend]. split; [done|].
    intros k' it' Hk'. destruct (decide (k' = k)) as [->|Hne].
    + rewrite lookup_insert_eq in Hk'. congruence.
    + rewrite lookup_insert_ne in Hk' by done. eauto.
  - (* Register *)
    destruct (pending w !! k) as [it|] eqn:Hk.
    2:{ simpl in Hstep. rewrite Hk in Hstep. inversion Hstep; subst o w'.
        simpl. rewrite app_nil_r. split; [done|].
        repeat split; auto; congruence. }
    assert (Hsub : ∀ k' it', delete k (pending w) !! k' = Some it' →
                             pending w !! k' = Some it').
    { intros k' it' H. rewrite lookup_delete in H. by case_decide. }
    destruct (step_register_cases k it w Hok Hk)
      as [(Hr & Hs)|[(Hr & Hcl & Hs)|(Hr & Hcl & He & Hl & Hb & Hs)]];
      rewrite Hs in Hstep; inversion Hstep; subst o w'; simpl;
      rewrite app_nil_r.
    + split; [|repeat split; auto; congruence].
      apply (world_ok_fewer_pending _ (pending w)); [by destruct w|done].
    + split; [|repeat split; auto; congruence].
      apply (world_ok_fewer_pending _ (pending w)); [by destruct w|done].
    + split; [|repeat split; auto; congruence].
      destruct Hok as (Hq & _). split; [exact Hq|]. split; simpl.
      * intros k' it' Hk'.
        apply lookup_singleton_Some in Hk' as [<- <-].
        split; [done|]. split; [done|].
        intros k' [it' Hk']. by apply lookup_singleton_Some in Hk' as [<- _].
      * done.
  - (* Next *)
    destruct (handles w !! k) as [it|] eqn:Hk.
    2:{ simpl in Hstep. rewrite Hk in Hstep. inversion Hstep; subst o w'.
        simpl. rewrite app_nil_r. split; [done|].
        repeat split; auto; congruence. }
    destruct (step_next_cases k it w Hok Hk)
      as [(Hcl & Hs)|[(Hcl & Hu & Hs)|(Hcl & v & w1 & Hs & Hok' & Hu & Hh
                                        & _ & _ & Hr' & Hcl')]];
      rewrite Hs in Hstep; inversion Hstep; subst o w'; simpl.
    + rewrite app_nil_r. split; [done|]. repeat split; auto; congruence.
    + rewrite app_nil_r. split; [done|]. repeat split; auto; congruence.
    + rewrite app_nil_r, Hu. split; [done|].
      repeat split; auto; try congruence. right. by exists v.
  - (* Peek *)
    destruct (handles w !! k) as [it|] eqn:Hk.
    2:{ simpl in Hstep. rewrite Hk in Hstep. inversion Hstep; subst o w'.
        simpl. rewrite app_nil_r. split; [done|].
        repeat split; auto; congruence. }
    destruct (step_peek k it w Hok Hk) as (v & Hh & _ & Hs).
    rewrite Hs in Hstep. inversion Hstep; subst o w'. simpl.
    rewrite app_nil_r. split; [done|]. repeat split; auto; congruence.
Qed.

End steps.

(** ** Whole executions *)

Section runs.
Context {T : Type}.
Implicit Types (w : interleaving.world T) (tr : list (interleaving.event T))
         (os : list (interleaving.obs T)).
Import interleaving invariant.

Lemma run_cons e tr w :
  run (e :: tr) w
  = ((step e w).1 :: (run tr (step e w).2).1, (run tr (step e w).2).2).
Proof.
  simpl. destruct (step e w) as [o w1]. simpl.
  by destruct (run tr w1) as [os w2].
Qed.

Lemma run_app tr1 tr2 w :
  run (tr1 ++ tr2) w
  = ((run tr1 w).1 ++ (run tr2 (run tr1 w).2).1, (run tr2 (run tr1 w).2).2).
Proof.
  revert w. induction tr1 as [|e tr1 IH]; intros w.
  - simpl. by destruct (run tr2 w).
  - rewrite <- app_comm_cons, !run_cons. simpl. by rewrite IH.
Qed.

Lemma received_cons o os : received (o :: os) = received [o] ++ received os.
Proof. unfold received. simpl. by destruct o. Qed.

Lemma appended_cons e o tr os :
  appended (e :: tr) (o :: os) = appended [e] [o] ++ appended tr os.
Proof. unfold appended. simpl. by destruct e, o as [[]| | | | | |]. Qed.

Lemma pushed_cons e tr : pushed (e :: tr) = pushed [e] ++ pushed tr.
Proof. unfold pushed. simpl. by destruct e. Qed.

(** The invariant holds along every execution, no step is undefined,
    the flags only ever get set, and what [next] returned followed by
    what is still unread is what was unread before followed by what
    [push] appended. *)
Lemma run_ok tr : ∀ w,
  world_ok w →
  world_ok (run tr w).2 ∧
  (UB ∉ (run tr w).1) ∧
  (has_receiver_v (shared w) = true →
   has_receiver_v (shared (run tr w).2) = true) ∧
  (is_closed_v (shared w) = true →
   is_closed_v (shared (run tr w).2) = true) ∧
  (Some <$> received (run tr w).1) ++ unread (shared (run tr w).2)
  = unread (shared w) ++ (Some <$> appended tr (run tr w).1) ∧
  (has_receiver_v (shared w) = true →
   appended tr (run tr w).1 = pushed tr) ∧
  Forall (λ v, head_slot (shared w) = Some v ∨
               ∃ x, v = Some x ∧ x ∈ received (run tr w).1)
         (peeked (run tr w).1).
Proof.
  induction tr as [|e tr IH]; intros w Hok.
  - simpl. rewrite app_nil_r. split; [done|].
    split; [apply not_elem_of_nil|]. repeat split; auto.
  - rewrite run_cons.
    destruct (step e w) as [o w1] eqn:Hs. cbn [fst snd].
    destruct (step_ok e w o w1 Hok Hs)
      as (Hok1 & Hub & Hr1 & Hc1 & Hq1 & Ha1 & Hp1 & Hh1).
    destruct (IH w1 Hok1) as (Hok2 & Hub2 & Hr2 & Hc2 & Hq2 & Ha2 & Hp2).
    split; [done|]. split.
    { apply not_elem_of_cons. split; [congruence|done]. }
    split; [auto|]. split; [auto|]. split.
    { rewrite received_cons, appended_cons, !fmap_app.
      rewrite <- app_assoc, Hq2, !app_assoc. by rewrite Hq1. }
    split.
    { intros Hr. rewrite appended_cons, pushed_cons. f_equal; auto. }
    assert (Hrest : Forall
              (λ v, head_slot (shared w) = Some v ∨
                    ∃ x, v = Some x ∧ x ∈ received (o :: (run tr w1).1))
              (peeked (run tr w1).1)).
    { eapply Forall_impl; [exact Hp2|]. cbn beta.
      intros v [Hv|(x & -> & Hx)].
      - destruct Hh1 as [Heq|(x & -> & Hx)].
        + left. congruence.
        + right. exists x. split; [congruence|].
          rewrite received_cons. simpl. apply list_elem_of_here.
      - right. exists x. split; [done|].
        rewrite received_cons. apply elem_of_app. by right. }
    unfold peeked in *. simpl.
    destruct o; simpl; try exact Hrest.
    constructor; [|exact Hrest]. left. by apply Hp1.
Qed.

(** A successful registration leaves exactly the state of a channel on
    which nothing was ever pushed: the flag set, the channel open, the
    initial one-slot list, and the new receiver's cursor on that slot. *)
Lemma registered_world k w :
  world_ok w →
  (step (Register k) w).1 = Done NoSignal →
  has_receiver_v (shared w) = false ∧
  world_ok (step (Register k) w).2 ∧
  shared (step (Register k) w).2
  = mk_state true false (forward_list.singleton None) (At 0) ∧
  handles (step (Register k) w).2 = {[k := At 0]}.
Proof.
  intros Hok Hs.
  destruct (pending w !! k) as [it|] eqn:Hk;
    [|simpl in Hs; by rewrite Hk in Hs].
  destruct (step_register_cases k it w Hok Hk)
    as [(Hr & Hs')|[(Hr & Hcl & Hs')|(Hr & Hcl & He & Hl & Hb & Hs')]];
    rewrite Hs' in Hs; try done.
  destruct (step_ok _ _ _ _ Hok Hs') as (Hok' & _).
  rewrite Hs'. simpl. split; [done|]. split; [done|].
  destruct Hok as (_ & _ & Hp). destruct (Hp Hr) as [Hd _].
  rewrite Hd in Hb. rewrite <- Hl, Hb, Hd. done.
Qed.

(** With the flag set, a batch of pushes is appended in order. *)
Lemma run_pushes (vs : list T) : ∀ w,
  world_ok w → has_receiver_v (shared w) = true →
  (run (Push <$> vs) w).1 = replicate (length vs) (Done NotifyOne) ∧
  world_ok (run (Push <$> vs) w).2 ∧
  unread (shared (run (Push <$> vs) w).2)
  = unread (shared w) ++ (Some <$> vs) ∧
  handles (run (Push <$> vs) w).2 = handles w ∧
  is_closed_v (shared (run (Push <$> vs) w).2) = is_closed_v (shared w).
Proof.
  induction vs as [|v vs IH]; intros w Hok Hr.
  - simpl. by rewrite app_nil_r.
  - rewrite fmap_cons, run_cons.
    destruct (step_push_appended v w Hok Hr)
      as (w1 & Hs & Hok1 & Hu & _ & _ & Hh & Hr1 & Hcl).
    rewrite Hs. cbn [fst snd].
    destruct (IH w1 Hok1 Hr1) as (Ho & Hok2 & Hu2 & Hh2 & Hcl2).
    rewrite Ho, Hu2, Hu, Hh2, Hcl2, <- app_assoc. done.
Qed.

(** On an open channel, as many [next] calls as there are unread values
    all return, in queue order. *)
Lemma run_nexts k (vs : list T) : ∀ w u,
  world_ok w → is_Some (handles w !! k) →
  is_closed_v (shared w) = false →
  unread (shared w) = (Some <$> vs) ++ u →
  (run (replicate (length vs) (Next k)) w).1 = Item <$> vs ∧
  unread (shared (run (replicate (length vs) (Next k)) w).2) = u.
Proof.
  induction vs as [|v vs IH]; intros w u Hok [it Hk] Hcl Hu; [done|].
  simpl replicate. rewrite run_cons.
  destruct (step_next_cases k it w Hok Hk)
    as [(Hcl' & _)|[(_ & Hu' & _)|(_ & x & w1 & Hs & Hok1 & Hu1 & _ & _
                                    & Hk1 & _ & Hcl1)]].
  - congruence.
  - by rewrite Hu in Hu'.
  - rewrite Hs. cbn [fst snd]. rewrite Hu in Hu1. simpl in Hu1.
    inversion Hu1; subst x.
    destruct (IH w1 u Hok1 Hk1 Hcl1) as (Ho & Hu2); [done|].
    by rewrite Ho, Hu2.
Qed.

End runs.

(** ** Handles and the heap of channel states *)

Section handle_facts.
Context {T : Type}.
Implicit Types (h : heap T) (cb : control_block T) (p : shared_ptr).
#[local] Arguments with_state : simpl never.
#[local] Arguments sp_release : simpl never.
#[local] Arguments sp_copy : simpl never.

Lemma block_eta cb : mk_block (use_count cb) (obj cb) = cb.
Proof. by destruct cb. Qed.

Lemma with_state_live {A} a cb
    (f : channel_state T → outcome A * channel_state T) h :
  h !! a = Some cb →
  with_state (Some a) f h
  = ((f (obj cb)).1, <[a := mk_block (use_count cb) (f (obj cb)).2]> h).
Proof. intros Ha. unfold with_state. rewrite Ha. by destruct (f (obj cb)). Qed.

(** A region that leaves the state alone leaves the heap alone. *)
Lemma with_state_frame {A} p
    (f : channel_state T → outcome A * channel_state T) h :
  (∀ st, (f st).2 = st) → (with_state p f h).2 = h.
Proof.
  intros Hf. destruct p as [a|]; [|done]. unfold with_state.
  destruct (h !! a) as [cb|] eqn:Ha; [|done].
  specialize (Hf (obj cb)). destruct (f (obj cb)) as [r st']. simpl in *.
  subst st'. rewrite block_eta. by apply insert_id.
Qed.

Lemma sp_copy_release a cb h :
  h !! a = Some cb → 0 < use_count cb →
  sp_release (Some a) (sp_copy (Some a) h) = h.
Proof.
  intros Ha Hc. unfold sp_copy, sp_release. rewrite Ha, lookup_insert_eq.
  simpl. rewrite decide_False by lia. rewrite insert_insert_eq.
  rewrite Nat.sub_0_r, block_eta. by apply insert_id.
Qed.

(** [sender::sender(state)] on a live channel state. *)
Lemma sender_ctor_live a cb h :
  h !! a = Some cb → 0 < use_count cb →
  sender.ctor (Some a) h
  = if is_closed_v (obj cb) then (Throw channel_already_closed, h)
    else (Ret (sender.mk (Some a)),
          <[a := mk_block (S (use_count cb)) (obj cb)]> h).
Proof.
  intros Ha Hc. unfold sender.ctor. run_eff.
  assert (Hcp : sp_copy (Some a) h !! a
                = Some (mk_block (S (use_count cb)) (obj cb))).
  { unfold sp_copy. by rewrite Ha, lookup_insert_eq. }
  rewrite (with_state_live _ _ _ _ Hcp). simpl. unfold sender_body.
  destruct (is_closed_v (obj cb)); simpl.
  - f_equal. rewrite insert_id by done. by apply (sp_copy_release a cb).
  - f_equal. rewrite insert_id by done. unfold sp_copy. by rewrite Ha.
Qed.

(** [receiver::receiver(state)] on a live channel state. *)
Lemma receiver_ctor_live a cb h :
  h !! a = Some cb → 0 < use_count cb →
  receiver.ctor (Some a) h
  = if has_receiver_v (obj cb) then (Throw receiver_already_retrived, h)
    else if is_closed_v (obj cb) then (Throw channel_already_closed, h)
    else (Ret (receiver.mk (Some a) (last (obj cb))),
          <[a := mk_block (S (use_count cb))
                   (mk_state true false (data (obj cb)) (last (obj cb)))]> h).
Proof.
  intros Ha Hc. unfold receiver.ctor. run_eff.
  assert (Hcp : sp_copy (Some a) h !! a
                = Some (mk_block (S (use_count cb)) (obj cb))).
  { unfold sp_copy. by rewrite Ha, lookup_insert_eq. }
  rewrite (with_state_live _ _ _ _ Hcp). simpl.
  rewrite (insert_id _ _ _ Hcp).
  rewrite (with_state_live _ _ _ _ Hcp). simpl. unfold receiver_body.
  destruct (has_receiver_v (obj cb)); simpl.
  { f_equal. rewrite insert_id by done. by apply (sp_copy_release a cb). }
  destruct (is_closed_v (obj cb)) eqn:Hcl; simpl.
  { f_equal. rewrite insert_id by done. by apply (sp_copy_release a cb). }
  f_equal. unfold sp_copy. rewrite Ha. by rewrite insert_insert_eq.
Qed.

End handle_facts.

(** ** Executions from a fresh channel *)

Section reachable.
Context {T : Type}.
Import interleaving invariant.

(** Every state reached from a fresh channel satisfies the invariant. *)
Lemma reachable_ok storage (tr : list (event T)) :
  world_ok (run tr (init storage)).2.
Proof. apply run_ok, init_ok. Qed.

(** From the registration of a receiver on, the values returned by
    [next], followed by the values still unread, are the values pushed
    since the registration. *)
Lemma since_registration storage (pre : list (event T)) k tr :
  let w1 := (step (Register k) (run pre (init storage)).2).2 in
  (step (Register k) (run pre (init storage)).2).1 = Done NoSignal →
  (Some <$> received (run tr w1).1) ++ unread (shared (run tr w1).2)
  = Some <$> pushed tr.
Proof.
  intros w1 Hreg.
  destruct (registered_world k _ (reachable_ok storage pre) Hreg)
    as (_ & Hok1 & Hsh & _). fold w1 in Hok1, Hsh.
  destruct (run_ok tr w1 Hok1) as (_ & _ & _ & _ & Hq & Ha & _).
  rewrite Hq, Ha by by rewrite Hsh. by rewrite Hsh.
Qed.

(** On a closed channel no step hands out a value. *)
Lemma closed_step_no_item (e : event T) w x :
  world_ok w → is_closed_v (shared w) = true → (step e w).1 ≠ Item x.
Proof.
  intros Hok Hcl. destruct e as [y| | |k|k|k|k].
  1-5,7: unfold step, report; repeat case_match; simpl; congruence.
  destruct (handles w !! k) as [it|] eqn:Hk.
  - destruct (step_next_cases k it w Hok Hk)
      as [(_ & ->)|[(? & _)|(? & _)]]; simpl; congruence.
  - simpl. by rewrite Hk.
Qed.

Lemma closed_run_no_item (tr : list (event T)) : ∀ w,
  world_ok w → is_closed_v (shared w) = true → received (run tr w).1 = [].
Proof.
  induction tr as [|e tr IH]; intros w Hok Hcl; [done|].
  rewrite run_cons. cbn [fst snd]. rewrite received_cons.
  destruct (step e w) as [o w1] eqn:Hs.
  destruct (step_ok e w o w1 Hok Hs) as (Hok1 & _ & _ & Hcl1 & _).
  cbn [fst snd]. rewrite IH by auto.
  pose proof (closed_step_no_item e w) as Hni. rewrite Hs in Hni.
  destruct o; try done. by destruct (Hni x Hok Hcl).
Qed.

(** A receiver registered on a fresh channel observes nothing of what was
    pushed before: [next] returns the first values pushed afterwards, and
    [operator*] returns the empty head slot or a value [next] returned. *)
Lemma later_receiver_observations storage (pre : list (event T)) k tr :
  let w1 := (step (Register k) (run pre (init storage)).2).2 in
  (step (Register k) (run pre (init storage)).2).1 = Done NoSignal →
  received (run tr w1).1
  = take (length (received (run tr w1).1)) (pushed tr) ∧
  Forall (λ v, v = None ∨ ∃ x, v = Some x ∧ x ∈ received (run tr w1).1)
         (peeked (run tr w1).1).
Proof.
  intros w1 Hreg. split.
  - apply (inj (fmap Some)).
    rewrite fmap_take, <- (since_registration storage pre k tr Hreg).
    fold w1. rewrite take_app_length'; [done|]. by rewrite length_fmap.
  - destruct (registered_world k _ (reachable_ok storage pre) Hreg)
      as (_ & Hok1 & Hsh & _). fold w1 in Hok1, Hsh.
    destruct (run_ok tr w1 Hok1) as (_ & _ & _ & _ & _ & _ & Hp).
    eapply Forall_impl; [exact Hp|]. cbn beta. rewrite Hsh.
    intros v [Hv|Hv]; [left|by right].
    unfold head_slot in Hv. simpl in Hv. congruence.
Qed.

(** No region ever clears [is_closed_v]. *)
Lemma step_closed_mono (e : event T) w :
  is_closed_v (shared w) = true → is_closed_v (shared (step e w).2) = true.
Proof.
  intros Hcl. destruct w as [[hr cl d l] p hs]. simpl in Hcl. subst cl.
  destruct e; unfold step, push_body, close_body, sender_body,
    receiver_snapshot, receiver_body, next_body, peek_body;
    simpl; repeat case_match; simplify_eq; done.
Qed.

Lemma run_closed_mono (tr : list (event T)) : ∀ w,
  is_closed_v (shared w) = true → is_closed_v (shared (run tr w).2) = true.
Proof.
  induction tr as [|e tr IH]; intros w Hcl; [done|].
  rewrite run_cons. cbn [snd]. by apply IH, step_closed_mono.
Qed.

Lemma run_closes n (w : world T) :
  (run (replicate (S n) Close) w).1 = replicate (S n) (Done NotifyAll) ∧
  (run (replicate (S n) Close) w).2 = (step Close w).2.
Proof.
  revert w. induction n as [|n IH]; intros w; [done|].
  change (replicate (S (S n)) Close) with (@Close T :: replicate (S n) Close).
  rewrite run_cons. destruct (IH (step Close w).2) as [-> ->]. done.
Qed.

End reachable.

(** ** Three executions on a well-initialised channel of numbers *)

Section scenarios.
Import interleaving.

(** The smoke test's shape: receiver first, three pushes, three [next]
    calls, then [close] and one more [next]. *)
Example receiver_first_scenario :
  (run [Snapshot 0; Register 0; Push 1; Push 2; Push 3;
        Next 0; Next 0; Next 0; Close; Next 0] (init (T := nat) false)).1
  = [Done NoSignal; Done NoSignal;
     Done NotifyOne; Done NotifyOne; Done NotifyOne;
     Item 1; Item 2; Item 3; Done NotifyAll; Threw close_channel].
Proof. vm_compute. reflexivity. Qed.

(** Pushes made before the receiver exists are gone: the receiver's first
    [next] finds nothing and waits. *)
Example pushes_first_scenario :
  (run [Push 1; Push 2; Push 3; Snapshot 0; Register 0; Peek 0; Next 0]
       (init (T := nat) false)).1
  = [Done NoSignal; Done NoSignal; Done NoSignal;
     Done NoSignal; Done NoSignal; Peeked None; Suspended].
Proof. vm_compute. reflexivity. Qed.

(** A constructor overtaken between its two regions: the second receiver
    is refused, and so is a receiver on a channel closed in between. *)
Example overtaken_constructor_scenario :
  (run [Snapshot 0; Snapshot 1; Register 1; Register 0]
       (init (T := nat) false)).1
  = [Done NoSignal; Done NoSignal; Done NoSignal;
     Threw receiver_already_retrived] ∧
  (run [Snapshot 0; Close; Register 0] (init (T := nat) false)).1
  = [Done NoSignal; Done NotifyAll; Threw channel_already_closed].
Proof. split; vm_compute; reflexivity. Qed.

End scenarios.

(** * The claims *)

(** C1. On a channel with one receiver attached, whatever the interleaving
    of the calls that follow the attachment, the values returned by the
    successful [next] calls are, in order, the first values pushed after
    the attachment: the i-th returning [next] yields the i-th pushed value,
    so [n] returning calls after [n] pushes yield exactly [v1..vn].  And
    such calls do return: after pushing [vs], as many [next] calls as there
    are values all succeed with [vs] in order. *)
Theorem C1_fifo_order {T} (storage : bool) (pre : list (interleaving.event T))
    (k : nat) (tr : list (interleaving.event T)) :
  let w0 := (interleaving.run pre (interleaving.init storage)).2 in
  let w1 := (interleaving.step (interleaving.Register k) w0).2 in
  (interleaving.step (interleaving.Register k) w0).1
  = interleaving.Done NoSignal →
  interleaving.received (interleaving.run tr w1).1
  = take (length (interleaving.received (interleaving.run tr w1).1))
         (interleaving.pushed tr) ∧
  (length (interleaving.received (interleaving.run tr w1).1)
   = length (interleaving.pushed tr) →
   interleaving.received (interleaving.run tr w1).1 = interleaving.pushed tr) ∧
  ∀ vs : list T,
    (interleaving.run
       ((interleaving.Push <$> vs)
          ++ replicate (length vs) (interleaving.Next k)) w1).1
    = replicate (length vs) (interleaving.Done NotifyOne)
        ++ (interleaving.Item <$> vs).
Proof.
  intros w0 w1 Hreg.
  pose proof (since_registration storage pre k tr Hreg) as Hq.
  fold w0 w1 in Hq.
  assert (Hpre : interleaving.received (interleaving.run tr w1).1
                 = take (length (interleaving.received
                                   (interleaving.run tr w1).1))
                        (interleaving.pushed tr)).
  { apply (inj (fmap Some)). rewrite fmap_take, <- Hq.
    rewrite take_app_length'; [done|]. by rewrite length_fmap. }
  split; [exact Hpre|]. split.
  - intros Hlen. rewrite Hpre, Hlen. apply firstn_all.
  - intros vs.
    destruct (registered_world k _ (reachable_ok storage pre) Hreg)
      as (_ & Hok1 & Hsh & Hh). fold w0 w1 in Hok1, Hsh, Hh.
    rewrite run_app.
    destruct (run_pushes vs w1 Hok1) as (Ho & Hok2 & Hu & Hh2 & Hcl);
      [by rewrite Hsh|].
    cbn [fst snd]. rewrite Ho. f_equal.
    refine (proj1 (run_nexts k vs _ [] Hok2 _ _ _)).
    + rewrite Hh2, Hh, lookup_singleton_eq. by eexists.
    + by rewrite Hcl, Hsh.
    + rewrite Hu, Hsh, app_nil_r. done.
Qed.

(** C1 at work: pushes before and after the registration, [next] calls
    in between. *)
Lemma C1_fifo_order_witness :
  (interleaving.step (interleaving.Register 0)
     (interleaving.run [interleaving.Push 9; interleaving.Snapshot 0]
        (interleaving.init false)).2).1
  = interleaving.Done NoSignal ∧
  interleaving.received
    (interleaving.run
       [interleaving.Push 1; interleaving.Next 0; interleaving.Push 2;
        interleaving.Push 3; interleaving.Next 0; interleaving.Next 0]
       (interleaving.step (interleaving.Register 0)
          (interleaving.run [interleaving.Push 9; interleaving.Snapshot 0]
             (interleaving.init false)).2).2).1
  = [1; 2; 3].
Proof.
  split; [vm_compute; reflexivity|].
  refine (proj1 (proj2
    (C1_fifo_order false [interleaving.Push 9; interleaving.Snapshot 0] 0
       [interleaving.Push 1; interleaving.Next 0; interleaving.Push 2;
        interleaving.Push 3; interleaving.Next 0; interleaving.Next 0]
       _)) _); vm_compute; reflexivity.
Defined.


(** C2. In every reachable state in which the channel is closed, the wait
    predicate of [next] holds, and [next] throws [close_channel] and
    leaves everything as it was, whether or not values are waiting behind
    the cursor; from then on no [next] call of any execution returns a
    value. *)
Theorem C2_close_preempts_delivery {T} (storage : bool)
    (tr : list (interleaving.event T)) (k : nat) (it : iterator) :
  let w := (interleaving.run tr (interleaving.init storage)).2 in
  interleaving.handles w !! k = Some it →
  is_closed_v (interleaving.shared w) = true →
  next_pred it (interleaving.shared w) = Some true ∧
  interleaving.step (interleaving.Next k) w
  = (interleaving.Threw close_channel, w) ∧
  ∀ tr', interleaving.received (interleaving.run tr' w).1 = [].
Proof.
  intros w Hk Hcl. pose proof (reachable_ok storage tr) as Hok. fold w in Hok.
  split; [|split].
  - destruct Hok as (Hq & Hh & _). destruct (Hh k it Hk) as (-> & _).
    destruct Hq as (n0 & v0 & rest & _ & _ & _ & Hc0 & _).
    destruct (incr_begin _ _ _ _ Hc0) as [-> Hi].
    unfold next_pred. rewrite Hi, Hcl. by destruct rest as [|[]].
  - destruct (step_next_cases k it w Hok Hk)
      as [(_ & Hs)|[(? & _)|(? & _)]]; [done|congruence..].
  - intros tr'. by apply closed_run_no_item.
Qed.

(** C2 at work: the value 7 is unread when the channel is closed, and
    [next] throws all the same. *)
Lemma C2_close_preempts_delivery_witness :
  let tr := [interleaving.Snapshot 0; interleaving.Register 0;
             interleaving.Push 7; interleaving.Close] in
  let w := (interleaving.run tr (interleaving.init false)).2 in
  invariant.unread (interleaving.shared w) = [Some 7] ∧
  interleaving.step (interleaving.Next 0) w
  = (interleaving.Threw close_channel, w).
Proof.
  split; [vm_compute; reflexivity|].
  refine (proj1 (proj2
    (C2_close_preempts_delivery false
       [interleaving.Snapshot 0; interleaving.Register 0;
        interleaving.Push 7; interleaving.Close] 0 (At 0) _ _)));
    vm_compute; reflexivity.
Defined.

(** C3. What the receiver constructor does on a live channel state is
    decided by the two flags ([receiver_ctor_live]): [has_receiver_v] set
    gives [receiver_already_retrived], otherwise [is_closed_v] set gives
    [channel_already_closed], otherwise the receiver is registered with the
    tail as its cursor.  But [channel_state]'s constructor leaves
    [has_receiver_v] uninitialised, so a freshly constructed, never-closed
    channel whose storage held a set flag refuses its first receiver:
    [get_receiver] and [make_channel] throw [receiver_already_retrived],
    in the sequential call and in the two-region execution alike. *)
Theorem C3_fresh_channel_rejects_receiver {T} (h : heap T) :
  (ch ← channel.ctor true; channel.get_receiver ch) h
  = (Throw receiver_already_retrived, (channel.ctor true h).2) ∧
  (make_channel true h).1 = Throw receiver_already_retrived ∧
  (interleaving.run [interleaving.Snapshot 0; interleaving.Register 0]
     (interleaving.init (T := T) true)).1
  = [interleaving.Done NoSignal; interleaving.Threw receiver_already_retrived].
Proof.
  assert (Hget : ∀ c, 0 < c →
            channel.get_receiver (T := T)
              (channel.mk (Some (fresh (dom h))))
              (<[fresh (dom h) := mk_block c (new_channel_state true)]> h)
            = (Throw receiver_already_retrived,
               <[fresh (dom h) := mk_block c (new_channel_state true)]> h)).
  { intros c Hc. unfold channel.get_receiver. cbn [channel.state].
    by rewrite (receiver_ctor_live _ (mk_block c (new_channel_state true)) _
                  (lookup_insert_eq _ _ _) Hc). }
  split; [|split].
  - unfold channel.ctor, make_shared. run_eff. cbn [fst snd].
    apply Hget. lia.
  - unfold make_channel, channel.ctor, make_shared. run_eff.
    unfold channel.get_sender. cbn [channel.state].
    rewrite (sender_ctor_live _ (mk_block 1 (new_channel_state true)) _
               (lookup_insert_eq _ _ _)) by (simpl; lia).
    cbn [obj use_count new_channel_state is_closed_v].
    rewrite insert_insert_eq, Hget by lia. done.
  - vm_compute. reflexivity.
Qed.

(** C6. On a channel handle whose state is alive, [get_sender] throws
    [channel_already_closed] and leaves the heap as it was when the channel
    is closed, and otherwise returns a sender sharing the state, whose use
    count goes up by one. *)
Theorem C6_get_sender_checks_closed {T} (ch : channel.t) (h : heap T)
    (a : nat) (cb : control_block T) :
  channel.state ch = Some a → h !! a = Some cb → 0 < use_count cb →
  (is_closed_v (obj cb) = true →
   channel.get_sender ch h = (Throw channel_already_closed, h)) ∧
  (is_closed_v (obj cb) = false →
   channel.get_sender ch h
   = (Ret (sender.mk (Some a)),
      <[a := mk_block (S (use_count cb)) (obj cb)]> h)).
Proof.
  intros Hst Ha Hc. unfold channel.get_sender. rewrite Hst.
  rewrite (sender_ctor_live a cb h Ha Hc).
  split; intros ->; done.
Qed.

(** C6 at work on a closed and on an open channel state. *)
Lemma C6_get_sender_checks_closed_witness :
  let open := new_channel_state (T := nat) false in
  let closed := (close_body open).2 in
  channel.get_sender (channel.mk (Some 0)) {[0 := mk_block 1 closed]}
  = (Throw channel_already_closed, {[0 := mk_block 1 closed]}) ∧
  channel.get_sender (channel.mk (Some 0)) {[0 := mk_block 1 open]}
  = (Ret (sender.mk (Some 0)), <[0 := mk_block 2 open]> {[0 := mk_block 1 open]}).
Proof.
  split.
  - refine (proj1 (C6_get_sender_checks_closed (channel.mk (Some 0))
      {[0 := mk_block 1 (close_body (new_channel_state (T := nat) false)).2]}
      0 (mk_block 1 (close_body (new_channel_state false)).2) _ _ _) _);
      [reflexivity|vm_compute; reflexivity|simpl; lia|reflexivity].
  - refine (proj2 (C6_get_sender_checks_closed (channel.mk (Some 0))
      {[0 := mk_block 1 (new_channel_state (T := nat) false)]}
      0 (mk_block 1 (new_channel_state false)) _ _ _) _);
      [reflexivity|vm_compute; reflexivity|simpl; lia|reflexivity].
Defined.


(** C4. [push] tests [has_receiver_v], and with the flag unset it returns
    at once and changes nothing ([step_push_dropped]); a receiver
    registered later sees none of the earlier pushes
    ([later_receiver_observations]).  But the flag is left uninitialised by
    [channel_state]'s constructor: on a fresh channel whose storage held a
    set flag, a [push] made before any receiver exists is appended to the
    queue and signalled, in the region itself, through [channel::push] and
    in the interleaving model. *)
Theorem C4_push_kept_without_receiver {T} (x : T) (h : heap T) :
  push_body x (new_channel_state true)
  = (Ret NotifyOne,
     mk_state true false (forward_list.mk [(0, None); (1, Some x)] 2) (At 1)) ∧
  (ch ← channel.ctor true; channel.push ch x) h
  = (Ret NotifyOne,
     <[fresh (dom h) :=
         mk_block 1
           (mk_state true false
              (forward_list.mk [(0, None); (1, Some x)] 2) (At 1))]> h) ∧
  (interleaving.step (interleaving.Push x) (interleaving.init true)).1
  = interleaving.Done NotifyOne ∧
  interleaving.handles (interleaving.init (T := T) true) = ∅.
Proof.
  split; [done|]. split; [|done].
  unfold channel.push, channel.ctor, make_shared. run_eff.
  cbn [fst snd channel.state].
  rewrite (with_state_live _ _ _ _ (lookup_insert_eq _ _ _)).
  by rewrite insert_insert_eq.
Qed.

(** C5. [close] is idempotent and [is_closed_v] is monotonic.  Closing a
    closed state changes nothing; the [close] of a sender, of a channel
    and of a closer are the same operation, and repeating it on the heap
    gives the same result and the same heap; any number of closes in an
    execution all return normally and leave the state the first one left;
    and once the flag is set, no execution of any operations clears it. *)
Theorem C5_close_idempotent_monotonic {T} :
  (∀ st : channel_state T,
     close_body st
     = (Ret NotifyAll, mk_state (has_receiver_v st) true (data st) (last st)) ∧
     close_body (close_body st).2 = close_body st) ∧
  (∀ (p : shared_ptr) (h : heap T),
     sender.close (sender.mk p) h
     = channel_closer.close (channel_closer.mk p) h ∧
     channel.close (channel.mk p) h
     = channel_closer.close (channel_closer.mk p) h ∧
     channel_closer.close (channel_closer.mk p)
       (channel_closer.close (channel_closer.mk p) h).2
     = channel_closer.close (channel_closer.mk p) h) ∧
  (∀ (n : nat) (w : interleaving.world T),
     (interleaving.run (replicate (S n) interleaving.Close) w).1
     = replicate (S n) (interleaving.Done NotifyAll) ∧
     (interleaving.run (replicate (S n) interleaving.Close) w).2
     = (interleaving.step interleaving.Close w).2) ∧
  (∀ (tr : list (interleaving.event T)) (w : interleaving.world T),
     is_closed_v (interleaving.shared w) = true →
     is_closed_v (interleaving.shared (interleaving.run tr w).2) = true).
Proof.
  split; [done|]. split; [|split].
  - intros p h. split; [done|]. split; [done|].
    unfold channel_closer.close. cbn [channel_closer.reference_counter].
    destruct p as [a|]; [|done]. unfold with_state.
    destruct (h !! a) as [cb|] eqn:Ha; simpl; [|by rewrite Ha].
    rewrite lookup_insert_eq. simpl. by rewrite insert_insert_eq.
  - apply run_closes.
  - intros tr w. apply run_closed_mono.
Qed.

(** C5 at work: after a close, an execution through every kind of call
    ends closed. *)
Lemma C5_close_idempotent_monotonic_witness :
  let w := (interleaving.run
              [interleaving.Snapshot 0; interleaving.Register 0;
               interleaving.Push 1; interleaving.Close]
              (interleaving.init false)).2 in
  is_closed_v (interleaving.shared w) = true ∧
  is_closed_v
    (interleaving.shared
       (interleaving.run
          [interleaving.Push 2; interleaving.Next 0; interleaving.Peek 0;
           interleaving.NewSender; interleaving.Snapshot 1;
           interleaving.Register 1; interleaving.Close]
          w).2) = true.
Proof.
  split; [vm_compute; reflexivity|].
  apply (proj2 (proj2 (proj2 (@C5_close_idempotent_monotonic nat)))).
  vm_compute; reflexivity.
Defined.


(** C7. On a halted scheduler, [connect] closes the channel behind the
    given closer (its [is_closed_v] is set afterwards, everything else in
    the channel state as it was), joins the given (joinable) thread and
    returns with the scheduler's lists as they were; on a running scheduler
    it stores the thread and the closer at the front of the lists, closes
    no channel and joins no thread.  Both closer overloads behave so. *)
Theorem C7_connect_after_halt {T} (by_move : bool)
    (closer : channel_closer.t) (w : scheduler.world T) :
  (∀ (i a : nat) (cb : control_block T),
     scheduler.is_closed_v (scheduler.self w) = true →
     channel_closer.reference_counter closer = Some a →
     scheduler.chans w !! a = Some cb →
     scheduler.connect by_move (Some i) closer w
     = (Ret None,
        scheduler.mk_world
          (scheduler.self w)
          (<[a := mk_block (use_count cb)
                   (mk_state (has_receiver_v (obj cb)) true
                             (data (obj cb)) (last (obj cb)))]>
             (scheduler.chans w))
          (scheduler.joined w ++ [i])) ∧
     closer_closed
       (scheduler.chans (scheduler.connect by_move (Some i) closer w).2)
       closer) ∧
  (∀ th : scheduler.thread,
     scheduler.is_closed_v (scheduler.self w) = false →
     ∃ h',
       scheduler.connect by_move th closer w
       = (Ret None,
          scheduler.mk_world
            (scheduler.mk (closer :: scheduler.closers (scheduler.self w))
                          (th :: scheduler.threads (scheduler.self w)) false)
            h' (scheduler.joined w)) ∧
       obj <$> h' = obj <$> scheduler.chans w).
Proof.
  split.
  - intros i a cb Hs Hc Ha.
    assert (Hrun : scheduler.connect by_move (Some i) closer w
      = (Ret None,
         scheduler.mk_world
           (scheduler.self w)
           (<[a := mk_block (use_count cb)
                    (mk_state (has_receiver_v (obj cb)) true
                              (data (obj cb)) (last (obj cb)))]>
              (scheduler.chans w))
           (scheduler.joined w ++ [i]))).
    { unfold scheduler.connect, scheduler.on_chans, scheduler.join. run_eff.
      rewrite Hs. unfold channel_closer.close. rewrite Hc.
      by rewrite (with_state_live _ _ _ _ Ha). }
    split; [exact Hrun|]. rewrite Hrun. cbn [snd scheduler.chans].
    eexists a, _. split; [exact Hc|]. split; [apply lookup_insert_eq|done].
  - intros th Hs.
    unfold scheduler.connect, scheduler.on_chans, scheduler.on_self. run_eff.
    rewrite Hs. destruct by_move; simpl; rewrite Hs.
    + by eexists.
    + eexists. split; [reflexivity|]. unfold sp_copy.
      destruct (channel_closer.reference_counter closer) as [a|]; [|done].
      destruct (scheduler.chans w !! a) as [cb|] eqn:Ha; [|done].
      rewrite fmap_insert. simpl. apply insert_id.
      by rewrite lookup_fmap, Ha.
Qed.

(** C7 at work on a halted and on a new scheduler: the open channel behind
    the closer is closed by the late [connect], and left open by the early
    one. *)
Lemma C7_connect_after_halt_witness :
  let st := new_channel_state (T := nat) false in
  let h : heap nat := {[0 := mk_block 2 st]} in
  let c := channel_closer.mk (Some 0) in
  is_closed_v st = false ∧
  scheduler.connect false (Some 5) c
    (scheduler.mk_world (scheduler.mk [] [] true) h [])
  = (Ret None,
     scheduler.mk_world (scheduler.mk [] [] true)
       (<[0 := mk_block 2
                 (mk_state false true (forward_list.singleton None) (At 0))]>
          h)
       [5]) ∧
  closer_closed
    (scheduler.chans
       (scheduler.connect false (Some 5) c
          (scheduler.mk_world (scheduler.mk [] [] true) h [])).2) c ∧
  ∃ h',
    scheduler.connect false (Some 5) c (scheduler.mk_world scheduler.ctor h [])
    = (Ret None,
       scheduler.mk_world (scheduler.mk [c] [Some 5] false) h' [])
    ∧ obj <$> h' = obj <$> h.
Proof.
  split; [reflexivity|].
  destruct (proj1 (C7_connect_after_halt false (channel_closer.mk (Some 0))
      (scheduler.mk_world (scheduler.mk [] [] true)
         {[0 := mk_block 2 (new_channel_state (T := nat) false)]} []))
      5 0 (mk_block 2 (new_channel_state false)) eq_refl eq_refl)
    as [Hrun Hcl]; [vm_compute; reflexivity|].
  split; [exact Hrun|]. split; [exact Hcl|].
  refine (proj2 (C7_connect_after_halt false (channel_closer.mk (Some 0))
      (scheduler.mk_world scheduler.ctor
         {[0 := mk_block 2 (new_channel_state (T := nat) false)]} []))
      (Some 5) _).
  reflexivity.
Defined.

(** C8, as stated, fails: a value pushed while no receiver is registered
    counts as pushed but is dropped, so after the single call [push(7)] on
    a fresh channel the list has length 1, not 1 - 0 + 1. *)
Lemma C8_dropped_push_breaks_length_law :
  ¬ length_law_counting_every_push false [interleaving.Push 7].
Proof. vm_compute. intros H. discriminate H. Qed.

(** C8, amended.  The queue of a new channel is one empty slot, and in
    every state reached from it: [last] points to the final slot; the slots
    behind the head hold, oldest first, exactly the appended values that no
    [next] has returned yet, the returned ones being the appended values
    before them; and the list length is the number of values appended
    (pushes that were not dropped) minus the number consumed, plus one. *)
Theorem C8_queue_shape {T} (storage : bool) (tr : list (interleaving.event T)) :
  let os := (interleaving.run tr (interleaving.init storage)).1 in
  let st := interleaving.shared
              (interleaving.run tr (interleaving.init storage)).2 in
  forward_list.values (data (new_channel_state (T := T) storage)) = [None] ∧
  (∃ pre nl vl, forward_list.cells (data st) = pre ++ [(nl, vl)] ∧
                last st = At nl) ∧
  (∃ hd, forward_list.values (data st)
         = hd :: (Some <$> drop (length (interleaving.received os))
                                (interleaving.appended tr os))) ∧
  interleaving.received os
  = take (length (interleaving.received os)) (interleaving.appended tr os) ∧
  forward_list.size (data st) + length (interleaving.received os)
  = length (interleaving.appended tr os) + 1.
Proof.
  intros os st.
  destruct (run_ok tr _ (init_ok (T := T) storage))
    as (Hok & _ & _ & _ & Hq & _).
  fold os in Hq. change (interleaving.shared _) with st in Hq at 1.
  simpl in Hq.
  destruct Hok as ((n0 & v0 & rest & pre & nl & vl & Hc & Hs & Hl & _) & _).
  fold st in Hc, Hs, Hl.
  assert (Hu : invariant.unread st = rest.*2).
  { unfold invariant.unread, forward_list.values. by rewrite Hc. }
  rewrite Hu in Hq.
  assert (Hrest : rest.*2 = Some <$> drop (length (interleaving.received os))
                                          (interleaving.appended tr os)).
  { rewrite fmap_drop, <- Hq, drop_app_length'; [done|]. by rewrite length_fmap. }
  split; [done|]. split; [by exists pre, nl, vl|]. split; [|split].
  - exists v0. unfold forward_list.values. by rewrite Hc, fmap_cons, Hrest.
  - apply (inj (fmap Some)). rewrite fmap_take, <- Hq.
    rewrite take_app_length'; [done|]. by rewrite length_fmap.
  - unfold forward_list.size. rewrite Hc. simpl.
    apply (f_equal length) in Hq.
    rewrite length_app, !length_fmap in Hq. lia.
Qed.

(** C9. [operator*] leaves the heap as it was, on any receiver (and,
    unlike [next], it does not hand back a changed receiver); on a receiver
    whose state is alive it returns the optional stored in the slot the
    cursor points to; and in every reachable state every receiver's cursor
    does point to a slot, so the call returns that slot's content and
    leaves the whole state, cursors included, as it was. *)
Theorem C9_peek_observes_only {T} :
  (∀ (r : receiver.t) (h : heap T), (receiver.peek r h).2 = h) ∧
  (∀ (r : receiver.t) (h : heap T) a cb o,
     receiver.state r = Some a → h !! a = Some cb →
     forward_list.deref (data (obj cb)) (receiver.iterator r) = Some o →
     receiver.peek r h = (Ret o, h)) ∧
  (∀ storage (tr : list (interleaving.event T)) k it,
     let w := (interleaving.run tr (interleaving.init storage)).2 in
     interleaving.handles w !! k = Some it →
     ∃ o, forward_list.deref (data (interleaving.shared w)) it = Some o ∧
          interleaving.step (interleaving.Peek k) w
          = (interleaving.Peeked o, w)).
Proof.
  assert (Hframe : ∀ (r : receiver.t) (h : heap T),
            (receiver.peek r h).2 = h).
  { intros r h. unfold receiver.peek. apply with_state_frame.
    intros st. unfold peek_body. by case_match. }
  split; [exact Hframe|]. split.
  - intros r h a cb o Hst Ha Hd.
    pose proof (Hframe r h) as Hh.
    unfold receiver.peek in *. rewrite Hst in *.
    rewrite (with_state_live _ _ _ _ Ha) in *.
    unfold peek_body in *. rewrite Hd in *. simpl in *. by rewrite Hh.
  - intros storage tr k it w Hk.
    destruct (step_peek k it w (reachable_ok storage tr) Hk)
      as (o & _ & Hd & Hs).
    by exists o.
Qed.

(** C9 at work: after [next] returned 4, [operator*] shows 4 and changes
    nothing, with 5 still unread. *)
Lemma C9_peek_observes_only_witness :
  let tr := [interleaving.Snapshot 0; interleaving.Register 0;
             interleaving.Push 4; interleaving.Push 5; interleaving.Next 0] in
  let w := (interleaving.run tr (interleaving.init false)).2 in
  interleaving.handles w !! 0 = Some (At 1) ∧
  interleaving.step (interleaving.Peek 0) w
  = (interleaving.Peeked (Some 4), w).
Proof.
  split; [vm_compute; reflexivity|].
  destruct (proj2 (proj2 (@C9_peek_observes_only nat)) false
              [interleaving.Snapshot 0; interleaving.Register 0;
               interleaving.Push 4; interleaving.Push 5; interleaving.Next 0]
              0 (At 1)) as (o & Hd & Hs); [vm_compute; reflexivity|].
  rewrite Hs. vm_compute in Hd. by inversion Hd.
Defined.

(** C10, as stated, fails: [share] is also defined on a detached receiver.
    It only moves the handle into a new shared receiver and never touches
    the null state pointer. *)
Lemma C10_share_defined_when_detached :
  ¬ only_avail_defined_when_detached nat.
Proof.
  intros (_ & _ & _ & _ & Hshare). specialize (Hshare ∅).
  vm_compute in Hshare. discriminate Hshare.
Qed.

(** C10, amended.  A default-constructed sender or receiver answers
    [avail()] with [false]; [avail] never changes the heap; a handle whose
    channel state is alive answers [true], in particular the sender and the
    receiver just obtained from a channel; and on a detached handle [push],
    [close], [next] and [operator*] are undefined, while [share] is defined
    and yields a shared receiver around the detached receiver. *)
Theorem C10_avail_detached_and_attached {T} :
  (∀ h : heap T,
     sender.avail sender.default h = (Ret false, h) ∧
     receiver.avail receiver.default h = (Ret false, h)) ∧
  (∀ (s : sender.t) (r : receiver.t) (h : heap T),
     (sender.avail s h).2 = h ∧ (receiver.avail r h).2 = h) ∧
  (∀ (h : heap T) a cb it,
     h !! a = Some cb → 0 < use_count cb →
     sender.avail (sender.mk (Some a)) h = (Ret true, h) ∧
     receiver.avail (receiver.mk (Some a) it) h = (Ret true, h)) ∧
  (∀ (storage : bool) (h : heap T),
     ((ch ← channel.ctor storage;
       s ← channel.get_sender ch;
       sender.avail s) h).1 = Ret true) ∧
  (∀ h : heap T,
     ((ch ← channel.ctor false;
       r ← channel.get_receiver ch;
       receiver.avail r) h).1 = Ret true) ∧
  (∀ (x : T) (h : heap T),
     (sender.push sender.default x h).1 = Undefined ∧
     (sender.close sender.default h).1 = Undefined ∧
     (receiver.next receiver.default h).1 = Undefined ∧
     (receiver.peek receiver.default h).1 = Undefined) ∧
  (∀ rs : shared_receiver.store,
     ∃ sr rs', share receiver.default rs
               = (Ret (sr, receiver.default), rs')).
Proof.
  assert (Hlive : ∀ (h : heap T) a cb, h !! a = Some cb → 0 < use_count cb →
            bool_decide (sp_use_count (Some a) h ≠ 0) = true).
  { intros h a cb Ha Hc. apply bool_decide_eq_true.
    unfold sp_use_count. rewrite Ha. lia. }
  split; [done|]. split; [done|]. split; [|split; [|split; [|split]]].
  - intros h a cb it Ha Hc. unfold sender.avail, receiver.avail, gets.
    cbn [sender.state receiver.state]. by rewrite (Hlive h a cb Ha Hc).
  - intros storage h. unfold channel.ctor, make_shared, channel.get_sender.
    run_eff. cbn [fst snd channel.state].
    rewrite (sender_ctor_live _ (mk_block 1 (new_channel_state storage)) _
               (lookup_insert_eq _ _ _)) by (simpl; lia).
    cbn -[insert]. by rewrite lookup_insert_eq.
  - intros h. unfold channel.ctor, make_shared, channel.get_receiver.
    run_eff. cbn [fst snd channel.state].
    rewrite (receiver_ctor_live _ (mk_block 1 (new_channel_state false)) _
               (lookup_insert_eq _ _ _)) by (simpl; lia).
    cbn -[insert]. by rewrite lookup_insert_eq.
  - done.
  - intros rs. unfold share, shared_receiver.ctor. simpl. by eexists _, _.
Qed.

(** C10 at work on a channel state with two owners. *)
Lemma C10_avail_detached_and_attached_witness :
  let h : heap nat := {[3 := mk_block 2 (new_channel_state false)]} in
  h !! 3 = Some (mk_block 2 (new_channel_state false)) ∧
  sender.avail (sender.mk (Some 3)) h = (Ret true, h) ∧
  receiver.avail (receiver.mk (Some 3) (At 0)) h = (Ret true, h).
Proof.
  split; [vm_compute; reflexivity|].
  refine (proj1 (proj2 (proj2 (@C10_avail_detached_and_attached nat)))
            {[3 := mk_block 2 (new_channel_state false)]} 3
            (mk_block 2 (new_channel_state false)) (At 0) _ _);
    [vm_compute; reflexivity|simpl; lia].
Defined.


(** * Further properties of the code *)

(** ** Executions of one channel *)

Section more_executions.
Context {T : Type}.
Import interleaving invariant.

Lemma registrations_cons (e : event T) o tr os :
  registrations (e :: tr) (o :: os)
  = registrations [e] [o] ++ registrations tr os.
Proof.
  unfold registrations. simpl. by destruct e, o.
Qed.

(** A step registers at most one receiver, and only by setting a flag
    that was unset. *)
Lemma step_registration (e : event T) w o w1 :
  world_ok w → step e w = (o, w1) →
  registrations [e] [o] = [] ∨
  (∃ k, registrations [e] [o] = [k] ∧
        has_receiver_v (shared w) = false ∧
        has_receiver_v (shared w1) = true).
Proof.
  intros Hok Hs. destruct e as [x| | |k|k|k|k];
    try (left; unfold registrations; simpl; by destruct o).
  destruct (pending w !! k) as [it|] eqn:Hk.
  - destruct (step_register_cases k it w Hok Hk)
      as [(Hr & Hs')|[(Hr & Hcl & Hs')|(Hr & Hcl & He & Hl & Hb & Hs')]];
      rewrite Hs' in Hs; inversion Hs; subst o w1.
    + by left.
    + by left.
    + right. by exists k.
  - simpl in Hs. rewrite Hk in Hs. inversion Hs. by left.
Qed.

Lemma registrations_bound (tr : list (event T)) : ∀ w,
  world_ok w →
  length (registrations tr (run tr w).1)
  ≤ (if has_receiver_v (shared w) then 0 else 1).
Proof.
  induction tr as [|e tr IH]; intros w Hok.
  { simpl. destruct (has_receiver_v (shared w)); unfold registrations; simpl; lia. }
  rewrite run_cons. cbn [fst snd].
  destruct (step e w) as [o w1] eqn:Hs. cbn [fst snd].
  rewrite registrations_cons, length_app.
  destruct (step_ok e w o w1 Hok Hs) as (Hok1 & _ & Hr1 & _).
  specialize (IH w1 Hok1).
  destruct (step_registration e w o w1 Hok Hs)
    as [->|(k & -> & Hf & Ht)]; simpl.
  - destruct (has_receiver_v (shared w)) eqn:Hr.
    + by rewrite Hr1 in IH.
    + destruct (has_receiver_v (shared w1)); lia.
  - rewrite Hf. rewrite Ht in IH. lia.
Qed.

Lemma size_unread (w : world T) :
  world_ok w →
  forward_list.size (data (shared w)) = S (length (unread (shared w))).
Proof.
  intros ((n0 & v0 & rest & _ & _ & _ & Hc & _) & _).
  unfold forward_list.size, unread, forward_list.values. rewrite Hc.
  simpl. by rewrite length_fmap.
Qed.

End more_executions.

(** X1. Memory safety of the queue.  In no execution that starts from a
    newly constructed channel, whatever the initial garbage in
    [has_receiver_v] and however the calls interleave, does a call step
    past the end of the list, go through an iterator to an erased node, or
    read the value of an empty slot. *)
Theorem X1_no_undefined_step {T} (storage : bool)
    (tr : list (interleaving.event T)) :
  interleaving.UB ∉ (interleaving.run tr (interleaving.init storage)).1.
Proof.
  by destruct (run_ok tr _ (init_ok (T := T) storage)) as (_ & Hub & _).
Qed.

(** X2. One receiver per channel.  In an execution from a new channel, at
    most one receiver constructor ever returns normally; at any moment at
    most one receiver exists; and while one exists, the body of every
    other constructor that had already taken its snapshot throws
    [receiver_already_retrived], leaving the channel and the receiver
    untouched. *)
Theorem X2_single_receiver {T} (storage : bool)
    (tr : list (interleaving.event T)) :
  let os := (interleaving.run tr (interleaving.init storage)).1 in
  let w := (interleaving.run tr (interleaving.init storage)).2 in
  length (registrations tr os) ≤ 1 ∧
  (∀ k k', is_Some (interleaving.handles w !! k) →
           is_Some (interleaving.handles w !! k') → k = k') ∧
  (∀ k k', is_Some (interleaving.handles w !! k) →
           is_Some (interleaving.pending w !! k') →
           interleaving.step (interleaving.Register k') w
           = (interleaving.Threw receiver_already_retrived,
              interleaving.mk (interleaving.shared w)
                (delete k' (interleaving.pending w))
                (interleaving.handles w))).
Proof.
  intros os w.
  pose proof (reachable_ok storage tr) as Hok. fold w in Hok.
  split; [|split].
  - pose proof (registrations_bound tr _ (init_ok (T := T) storage)) as Hb.
    fold os in Hb. destruct storage; simpl in Hb; lia.
  - intros k k' [it Hk] Hk'. destruct Hok as (_ & Hh & _).
    destruct (Hh k it Hk) as (_ & _ & Hu). by rewrite (Hu k' Hk').
  - intros k k' [it Hk] [it' Hk'].
    destruct (step_register_cases k' it' w Hok Hk')
      as [(_ & Hs)|[(Hr & _)|(Hr & _)]]; [done|..];
      destruct Hok as (_ & Hh & _); destruct (Hh k it Hk) as (_ & ? & _);
      congruence.
Qed.

(** X3. When [next] waits.  For a receiver of a reachable state, [next]
    throws [close_channel] exactly when the channel is closed; it stays in
    the wait exactly when the channel is open and nothing is unread; and it
    returns [v] exactly when the channel is open and [v] is the oldest
    unread value. *)
Theorem X3_next_outcomes {T} (storage : bool)
    (tr : list (interleaving.event T)) (k : nat) :
  let w := (interleaving.run tr (interleaving.init storage)).2 in
  is_Some (interleaving.handles w !! k) →
  ((interleaving.step (interleaving.Next k) w).1
   = interleaving.Threw close_channel
   ↔ is_closed_v (interleaving.shared w) = true) ∧
  ((interleaving.step (interleaving.Next k) w).1 = interleaving.Suspended
   ↔ is_closed_v (interleaving.shared w) = false ∧
     invariant.unread (interleaving.shared w) = []) ∧
  (∀ v, (interleaving.step (interleaving.Next k) w).1 = interleaving.Item v
        ↔ is_closed_v (interleaving.shared w) = false ∧
          head (invariant.unread (interleaving.shared w)) = Some (Some v)).
Proof.
  intros w [it Hk].
  pose proof (reachable_ok storage tr) as Hok. fold w in Hok.
  destruct (step_next_cases k it w Hok Hk)
    as [(Hcl & Hs)|[(Hcl & Hu & Hs)|(Hcl & x & w1 & Hs & _ & Hu & _)]];
    rewrite Hs; cbn [fst]; rewrite Hcl.
  - repeat split; try done; intros; try congruence; by destruct H.
  - rewrite Hu. repeat split; try done; intros; try congruence;
      by destruct H.
  - rewrite Hu. simpl. repeat split; try done; intros; try congruence.
    + by destruct H.
    + destruct H as [_ H]. congruence.
Qed.

(** X3 at work: with 8 unread on an open channel, [next] returns 8. *)
Lemma X3_next_outcomes_witness :
  let tr := [interleaving.Snapshot 0; interleaving.Register 0;
             interleaving.Push 8] in
  let w := (interleaving.run tr (interleaving.init false)).2 in
  is_Some (interleaving.handles w !! 0) ∧
  (interleaving.step (interleaving.Next 0) w).1 = interleaving.Item 8.
Proof.
  split; [vm_compute; by eexists|].
  apply (proj2 (proj2 (X3_next_outcomes false
           [interleaving.Snapshot 0; interleaving.Register 0;
            interleaving.Push 8] 0 ltac:(vm_compute; by eexists)))).
  vm_compute. done.
Defined.

(** X4. [push] does not look at [is_closed_v].  On a closed channel with a
    receiver, every further [push] is still appended and signalled, so the
    list grows by one slot per call, and none of these values is ever
    returned: every later [next] throws. *)
Theorem X4_push_after_close {T} (storage : bool)
    (tr : list (interleaving.event T)) (k : nat) (vs : list T) :
  let w := (interleaving.run tr (interleaving.init storage)).2 in
  let r := interleaving.run (interleaving.Push <$> vs) w in
  is_Some (interleaving.handles w !! k) →
  is_closed_v (interleaving.shared w) = true →
  r.1 = replicate (length vs) (interleaving.Done NotifyOne) ∧
  forward_list.size (data (interleaving.shared r.2))
  = forward_list.size (data (interleaving.shared w)) + length vs ∧
  ∀ tr', interleaving.received (interleaving.run tr' r.2).1 = [].
Proof.
  intros w r [it Hk] Hcl.
  pose proof (reachable_ok storage tr) as Hok. fold w in Hok.
  assert (Hr : has_receiver_v (interleaving.shared w) = true).
  { destruct Hok as (_ & Hh & _). by destruct (Hh k it Hk) as (_ & ? & _). }
  destruct (run_pushes vs w Hok Hr) as (Ho & Hok2 & Hu & _ & Hcl2).
  fold r in Ho, Hok2, Hu, Hcl2.
  split; [done|]. split.
  - rewrite (size_unread _ Hok2), (size_unread _ Hok), Hu.
    rewrite length_app, length_fmap. lia.
  - intros tr'. apply closed_run_no_item; [done|congruence].
Qed.

(** X4 at work: two pushes after the close. *)
Lemma X4_push_after_close_witness :
  let tr := [interleaving.Snapshot 0; interleaving.Register 0;
             interleaving.Close] in
  let w := (interleaving.run tr (interleaving.init false)).2 in
  let r := interleaving.run [interleaving.Push 1; interleaving.Push 2] w in
  is_closed_v (interleaving.shared w) = true ∧
  forward_list.size (data (interleaving.shared r.2)) = 3 ∧
  interleaving.received
    (interleaving.run [interleaving.Next 0; interleaving.Next 0] r.2).1 = [].
Proof.
  split; [vm_compute; reflexivity|].
  destruct (X4_push_after_close false
              [interleaving.Snapshot 0; interleaving.Register 0;
               interleaving.Close] 0 [1; 2]
              ltac:(vm_compute; by eexists) ltac:(vm_compute; reflexivity))
    as (_ & Hsz & Hno).
  split; [exact Hsz|apply Hno].
Defined.


(** ** The scheduler *)

Section scheduler_facts.
Context {T : Type}.
Implicit Types (w : scheduler.world T) (cs : list channel_closer.t)
         (ids : list nat).

Lemma closed_block_twice (cb : control_block T) :
  closed_block (closed_block cb) = closed_block cb.
Proof. done. Qed.

Lemma close_all_spec cs : ∀ w,
  Forall (closer_live (scheduler.chans w)) cs →
  ∃ h', scheduler.close_all cs w
        = (Ret tt,
           scheduler.mk_world (scheduler.self w) h' (scheduler.joined w)) ∧
        closed_behind cs (scheduler.chans w) h'.
Proof.
  induction cs as [|c cs IH]; intros w Hlive.
  - exists (scheduler.chans w). split; [by destruct w|].
    intros a. by destruct (scheduler.chans w !! a) as [cb|].
  - apply Forall_cons in Hlive as [(a0 & Hc & [cb0 Ha0]) Hlive].
    simpl. unfold scheduler.on_chans, channel_closer.close. run_eff.
    rewrite Hc, (with_state_live _ _ _ _ Ha0). cbn [fst snd].
    set (w1 := scheduler.mk_world _ _ _).
    destruct (IH w1) as (h' & Hrun & Hh').
    { eapply Forall_impl; [exact Hlive|]. intros c' (a & Hc' & Ha).
      exists a. split; [done|]. simpl.
      destruct (decide (a = a0)) as [->|Hne].
      - rewrite lookup_insert_eq. by eexists.
      - by rewrite lookup_insert_ne. }
    exists h'. split; [exact Hrun|].
    intros a. rewrite Hh'. simpl. rewrite Hc.
    destruct (decide (a = a0)) as [->|Hne].
    + rewrite lookup_insert_eq, Ha0. simpl.
      rewrite (decide_True (P := Some a0 ∈ Some a0 :: _))
        by apply list_elem_of_here.
      by case_decide.
    + rewrite lookup_insert_ne by done.
      destruct (scheduler.chans w !! a) as [cb|]; [|done]. simpl.
      destruct (decide (Some a ∈ channel_closer.reference_counter <$> cs))
        as [Hin|Hnin].
      * rewrite decide_True; [done|]. by apply list_elem_of_further.
      * rewrite decide_False; [done|].
        intros [Heq|Hin]%elem_of_cons; [congruence|done].
Qed.

Lemma join_all_spec ids : ∀ w,
  scheduler.join_all (Some <$> ids) w
  = (Ret (replicate (length ids) None),
     scheduler.mk_world (scheduler.self w) (scheduler.chans w)
                        (scheduler.joined w ++ ids)).
Proof.
  induction ids as [|i ids IH]; intros w.
  - simpl. rewrite app_nil_r. by destruct w.
  - simpl. unfold scheduler.join. run_eff. rewrite IH. simpl.
    by rewrite <- app_assoc.
Qed.

Lemma join_stored_spec ids : ∀ pre w,
  scheduler.threads (scheduler.self w) = pre ++ (Some <$> ids) →
  scheduler.join_stored (length pre) (Some <$> ids) w
  = (Ret tt,
     scheduler.mk_world
       (scheduler.mk (scheduler.closers (scheduler.self w))
                     (pre ++ replicate (length ids) None)
                     (scheduler.is_closed_v (scheduler.self w)))
       (scheduler.chans w) (scheduler.joined w ++ ids)).
Proof.
  induction ids as [|i ids IH]; intros pre w Hth.
  - simpl in *. rewrite !app_nil_r in *. rewrite <- Hth.
    by destruct w as [[] ? ?].
  - simpl. unfold scheduler.join, scheduler.on_self. run_eff. simpl.
    rewrite Hth, fmap_cons. unfold scheduler.thread in *.
    assert (Hins : <[length pre := None]> (pre ++ Some i :: (Some <$> ids))
                   = (pre ++ [None]) ++ (Some <$> ids)).
    { rewrite insert_app_r_alt by apply Nat.le_refl.
      rewrite Nat.sub_diag. simpl.
      by rewrite <- app_assoc. }
    rewrite Hins.
    replace (S (length pre)) with (length (pre ++ [@None nat]))
      by (rewrite length_app; simpl; lia).
    rewrite IH by done. simpl. by rewrite <- !app_assoc.
Qed.

Lemma close_all_frame cs : ∀ w,
  scheduler.self (scheduler.close_all cs w).2 = scheduler.self w ∧
  scheduler.joined (scheduler.close_all cs w).2 = scheduler.joined w.
Proof.
  induction cs as [|c cs IH]; intros w; [done|].
  simpl. unfold scheduler.on_chans. run_eff.
  destruct (channel_closer.close c (scheduler.chans w)) as [[] h1]; try done.
  exact (IH (scheduler.mk_world (scheduler.self w) h1 (scheduler.joined w))).
Qed.

Lemma join_all_flag (ths : list scheduler.thread) : ∀ w,
  scheduler.self (scheduler.join_all ths w).2 = scheduler.self w.
Proof.
  induction ths as [|th ths IH]; intros w; [done|].
  simpl. unfold scheduler.join. run_eff. destruct th as [i|]; [|done].
  simpl. specialize (IH (scheduler.mk_world (scheduler.self w)
                           (scheduler.chans w) (scheduler.joined w ++ [i]))).
  destruct (scheduler.join_all ths _) as [[] w2]; simpl in *; done.
Qed.

Lemma join_stored_flag (ths : list scheduler.thread) : ∀ i w,
  scheduler.is_closed_v (scheduler.self (scheduler.join_stored i ths w).2)
  = scheduler.is_closed_v (scheduler.self w).
Proof.
  induction ths as [|th ths IH]; intros i w; [done|].
  simpl. unfold scheduler.join, scheduler.on_self. run_eff.
  destruct th as [j|]; [|done]. simpl. by rewrite IH.
Qed.

Lemma closed_behind_closed cs (h h' : heap T) c :
  closed_behind cs h h' → c ∈ cs → closer_live h c → closer_closed h' c.
Proof.
  intros Hcb Hin (a & Hc & [cb Ha]). exists a, (closed_block cb).
  split; [done|]. split; [|done].
  rewrite Hcb, Ha. simpl. rewrite decide_True; [done|].
  rewrite <- Hc. by apply list_elem_of_fmap_2.
Qed.

Lemma closed_behind_live cs (h h' : heap T) c :
  closed_behind cs h h' → closer_live h c → closer_live h' c.
Proof.
  intros Hcb (a & Hc & [cb Ha]). exists a. split; [done|].
  rewrite Hcb, Ha. by eexists.
Qed.

Lemma closed_behind_untouched cs (h h' : heap T) a :
  closed_behind cs h h' →
  Some a ∉ channel_closer.reference_counter <$> cs → h' !! a = h !! a.
Proof.
  intros Hcb Hnin. rewrite Hcb.
  destruct (h !! a) as [cb|]; [|done]. simpl. by rewrite decide_False.
Qed.

Lemma closed_behind_twice cs (h h' h'' : heap T) :
  closed_behind cs h h' → closed_behind cs h' h'' → h'' = h'.
Proof.
  intros H1 H2. apply map_eq. intros a. rewrite H2, H1.
  destruct (h !! a) as [cb|]; [|done]. simpl. by case_decide.
Qed.

(** [halt] on a scheduler whose closers are all live. *)
Lemma halt_live w :
  Forall (closer_live (scheduler.chans w))
         (scheduler.closers (scheduler.self w)) →
  ∃ h', scheduler.halt w
        = (Ret NotifyAll,
           scheduler.mk_world
             (scheduler.mk (scheduler.closers (scheduler.self w))
                           (scheduler.threads (scheduler.self w)) true)
             h' (scheduler.joined w)) ∧
        closed_behind (scheduler.closers (scheduler.self w))
                      (scheduler.chans w) h'.
Proof.
  intros Hlive. unfold scheduler.halt, scheduler.on_self. run_eff. simpl.
  set (w1 := scheduler.mk_world _ _ _).
  destruct (close_all_spec (scheduler.closers (scheduler.self w)) w1 Hlive)
    as (h' & Hrun & Hcb).
  exists h'. by rewrite Hrun.
Qed.

(** [wait] on a halted scheduler whose stored threads are all joinable. *)
Lemma wait_halted w ids :
  scheduler.is_closed_v (scheduler.self w) = true →
  scheduler.threads (scheduler.self w) = Some <$> ids →
  scheduler.wait w
  = (Ret tt,
     scheduler.mk_world
       (scheduler.mk (scheduler.closers (scheduler.self w))
                     (replicate (length ids) None) true)
       (scheduler.chans w) (scheduler.joined w ++ ids)).
Proof.
  intros Hh Hth. unfold scheduler.wait. run_eff. rewrite Hh, Hth.
  pose proof (join_stored_spec ids [] w Hth) as Hj. simpl in Hj.
  by rewrite Hj, Hh.
Qed.

(** [connect] on a running scheduler. *)
Lemma connect_running by_move th closer w :
  scheduler.is_closed_v (scheduler.self w) = false →
  ∃ h',
    scheduler.connect by_move th closer w
    = (Ret None,
       scheduler.mk_world
         (scheduler.mk (closer :: scheduler.closers (scheduler.self w))
                       (th :: scheduler.threads (scheduler.self w)) false)
         h' (scheduler.joined w)) ∧
    obj <$> h' = obj <$> scheduler.chans w.
Proof.
  intros Hs.
  unfold scheduler.connect, scheduler.on_chans, scheduler.on_self. run_eff.
  rewrite Hs. destruct by_move; simpl; rewrite Hs.
  - by eexists.
  - eexists. split; [reflexivity|]. unfold sp_copy.
    destruct (channel_closer.reference_counter closer) as [a|]; [|done].
    destruct (scheduler.chans w !! a) as [cb|] eqn:Ha; [|done].
    rewrite fmap_insert. simpl. apply insert_id.
    by rewrite lookup_fmap, Ha.
Qed.

End scheduler_facts.

(** X5. [halt] halts the scheduler and closes the channel behind every
    registered closer: provided each closer still leads to a channel
    state, the call returns normally, every such channel is closed
    afterwards, a channel no registered closer refers to is left exactly as
    it was, and the stored lists and the threads are not touched (nothing
    is joined). *)
Theorem X5_halt_closes_registered {T} (w : scheduler.world T) :
  Forall (closer_live (scheduler.chans w))
         (scheduler.closers (scheduler.self w)) →
  ∃ h', scheduler.halt w
        = (Ret NotifyAll,
           scheduler.mk_world
             (scheduler.mk (scheduler.closers (scheduler.self w))
                           (scheduler.threads (scheduler.self w)) true)
             h' (scheduler.joined w)) ∧
        (∀ c, c ∈ scheduler.closers (scheduler.self w) → closer_closed h' c) ∧
        (∀ a, Some a ∉ channel_closer.reference_counter
                         <$> scheduler.closers (scheduler.self w) →
              h' !! a = scheduler.chans w !! a).
Proof.
  intros Hlive. destruct (halt_live w Hlive) as (h' & Hrun & Hcb).
  exists h'. split; [done|]. split.
  - intros c Hin. eapply closed_behind_closed; [done..|].
    rewrite Forall_forall in Hlive. by apply Hlive.
  - intros a Hnin. by eapply closed_behind_untouched.
Qed.

(** X5 at work: two channels, a closer registered for the first only. *)
Lemma X5_halt_closes_registered_witness :
  let st := new_channel_state (T := nat) false in
  let h : heap nat := {[0 := mk_block 2 st; 1 := mk_block 1 st]} in
  let c := channel_closer.mk (Some 0) in
  let w := scheduler.mk_world (scheduler.mk [c] [Some 7] false) h [] in
  Forall (closer_live h) [c] ∧
  ∃ h', scheduler.halt w
        = (Ret NotifyAll,
           scheduler.mk_world (scheduler.mk [c] [Some 7] true) h' []) ∧
        closer_closed h' c ∧ h' !! 1 = Some (mk_block 1 st).
Proof.
  intros st h c w.
  assert (Hlive : Forall (closer_live h) [c]).
  { repeat constructor. exists 0. split; [done|]. vm_compute. by eexists. }
  split; [exact Hlive|].
  destruct (X5_halt_closes_registered w Hlive) as (h' & Hrun & Hcl & Hun).
  exists h'. split; [exact Hrun|]. split.
  - apply Hcl. apply list_elem_of_here.
  - rewrite Hun; [vm_compute; reflexivity|].
    simpl. intros [Heq|Hin]%elem_of_cons; [discriminate Heq|].
    by apply not_elem_of_nil in Hin.
Defined.

(** X6. [halt] is idempotent: with live closers, halting a second time
    returns the same and leaves scheduler, channels and threads exactly as
    the first call left them. *)
Theorem X6_halt_idempotent {T} (w : scheduler.world T) :
  Forall (closer_live (scheduler.chans w))
         (scheduler.closers (scheduler.self w)) →
  scheduler.halt (scheduler.halt w).2 = scheduler.halt w.
Proof.
  intros Hlive. destruct (halt_live w Hlive) as (h' & Hrun & Hcb).
  rewrite Hrun. cbn [snd].
  set (w' := scheduler.mk_world _ h' _).
  destruct (halt_live w') as (h'' & Hrun' & Hcb').
  { simpl. eapply Forall_impl; [exact Hlive|].
    intros c. by apply (closed_behind_live _ _ _ _ Hcb). }
  rewrite Hrun'. simpl in Hcb'.
  by rewrite (closed_behind_twice _ _ _ _ Hcb Hcb').
Qed.

(** X6 at work on a scheduler with one registered closer. *)
Lemma X6_halt_idempotent_witness :
  let st := new_channel_state (T := nat) false in
  let h : heap nat := {[0 := mk_block 2 st]} in
  let w := scheduler.mk_world
             (scheduler.mk [channel_closer.mk (Some 0)] [] false) h [] in
  Forall (closer_live h) [channel_closer.mk (Some 0)] ∧
  scheduler.halt (scheduler.halt w).2 = scheduler.halt w.
Proof.
  intros st h w.
  assert (Hlive : Forall (closer_live h) [channel_closer.mk (Some 0)]).
  { repeat constructor. exists 0. split; [done|]. vm_compute. by eexists. }
  split; [exact Hlive|]. exact (X6_halt_idempotent w Hlive).
Defined.

(** X7. [wait] stays suspended, changing nothing, while the scheduler
    runs.  Once it is halted, [wait] joins the stored threads in list
    order (the most recently connected first) and leaves every one of them
    not joinable; channels and closers are not touched. *)
Theorem X7_wait_joins_stored {T} (w : scheduler.world T) (ids : list nat) :
  (scheduler.is_closed_v (scheduler.self w) = false →
   scheduler.wait w = (Blocked, w)) ∧
  (scheduler.is_closed_v (scheduler.self w) = true →
   scheduler.threads (scheduler.self w) = Some <$> ids →
   scheduler.wait w
   = (Ret tt,
      scheduler.mk_world
        (scheduler.mk (scheduler.closers (scheduler.self w))
                      (replicate (length ids) None) true)
        (scheduler.chans w) (scheduler.joined w ++ ids))).
Proof.
  split.
  - intros Hr. unfold scheduler.wait. run_eff. by rewrite Hr.
  - apply wait_halted.
Qed.

(** X7 at work: threads 4 and 9 stored, 1 joined earlier. *)
Lemma X7_wait_joins_stored_witness :
  let running : scheduler.world nat :=
    scheduler.mk_world (scheduler.mk [] [Some 4; Some 9] false) ∅ [1] in
  let halted : scheduler.world nat :=
    scheduler.mk_world (scheduler.mk [] [Some 4; Some 9] true) ∅ [1] in
  scheduler.wait running = (Blocked, running) ∧
  scheduler.wait halted
  = (Ret tt, scheduler.mk_world (scheduler.mk [] [None; None] true) ∅ [1; 4; 9]).
Proof.
  split.
  - exact (proj1 (X7_wait_joins_stored
      (scheduler.mk_world (scheduler.mk [] [Some 4; Some 9] false) ∅ [1])
      []) eq_refl).
  - exact (proj2 (X7_wait_joins_stored
      (scheduler.mk_world (scheduler.mk [] [Some 4; Some 9] true) ∅ [1])
      [4; 9]) eq_refl eq_refl).
Defined.

(** X8. [wait] can be completed once.  After a [wait] that joined at least
    one stored thread, the threads stay in the list, no longer joinable, so
    a second [wait] throws [std::system_error] from the first [join] and
    changes nothing more. *)
Theorem X8_second_wait_throws {T} (w : scheduler.world T)
    (i : nat) (ids : list nat) :
  scheduler.is_closed_v (scheduler.self w) = true →
  scheduler.threads (scheduler.self w) = Some <$> (i :: ids) →
  (_ ← scheduler.wait; scheduler.wait) w
  = (Throw system_error, (scheduler.wait w).2).
Proof.
  intros Hh Hth. run_eff. rewrite (wait_halted w (i :: ids) Hh Hth).
  cbn [snd]. unfold scheduler.wait. by run_eff.
Qed.

(** X8 at work with one stored thread. *)
Lemma X8_second_wait_throws_witness :
  let w : scheduler.world nat :=
    scheduler.mk_world (scheduler.mk [] [Some 4] true) ∅ [] in
  (_ ← scheduler.wait; scheduler.wait) w
  = (Throw system_error,
     scheduler.mk_world (scheduler.mk [] [None] true) ∅ [4]).
Proof.
  exact (X8_second_wait_throws
           (scheduler.mk_world (scheduler.mk [] [Some 4] true) ∅ [])
           4 [] eq_refl eq_refl).
Defined.

(** X9. The list overloads of [connect].  On a halted scheduler the
    closer's channel is closed (its [is_closed_v] is set afterwards,
    everything else in the channel state as it was), the given threads are
    joined in list order and handed back not joinable, and nothing is
    stored.  On a running scheduler the whole list is spliced in front of
    the stored threads, the closer is put in front of the stored closers,
    the caller's list is left empty, no channel state changes and nothing
    is joined. *)
Theorem X9_connect_list {T} (closer : channel_closer.t)
    (w : scheduler.world T) :
  (∀ (ids : list nat) (a : nat) (cb : control_block T),
     scheduler.is_closed_v (scheduler.self w) = true →
     channel_closer.reference_counter closer = Some a →
     scheduler.chans w !! a = Some cb →
     scheduler.connect_list (Some <$> ids) closer w
     = (Ret (replicate (length ids) None),
        scheduler.mk_world (scheduler.self w)
          (<[a := mk_block (use_count cb)
                   (mk_state (has_receiver_v (obj cb)) true
                             (data (obj cb)) (last (obj cb)))]>
             (scheduler.chans w))
          (scheduler.joined w ++ ids)) ∧
     closer_closed
       (scheduler.chans (scheduler.connect_list (Some <$> ids) closer w).2)
       closer) ∧
  (∀ ths : list scheduler.thread,
     scheduler.is_closed_v (scheduler.self w) = false →
     ∃ h',
       scheduler.connect_list ths closer w
       = (Ret [],
          scheduler.mk_world
            (scheduler.mk (closer :: scheduler.closers (scheduler.self w))
                          (ths ++ scheduler.threads (scheduler.self w)) false)
            h' (scheduler.joined w)) ∧
       obj <$> h' = obj <$> scheduler.chans w).
Proof.
  split.
  - intros ids a cb Hs Hc Ha.
    assert (Hrun : scheduler.connect_list (Some <$> ids) closer w
      = (Ret (replicate (length ids) None),
         scheduler.mk_world (scheduler.self w)
           (<[a := mk_block (use_count cb)
                    (mk_state (has_receiver_v (obj cb)) true
                              (data (obj cb)) (last (obj cb)))]>
              (scheduler.chans w))
           (scheduler.joined w ++ ids))).
    { unfold scheduler.connect_list, scheduler.on_chans. run_eff.
      rewrite Hs. unfold channel_closer.close. rewrite Hc.
      rewrite (with_state_live _ _ _ _ Ha). cbn [fst snd].
      by rewrite join_all_spec. }
    split; [exact Hrun|]. rewrite Hrun. cbn [snd scheduler.chans].
    eexists a, _. split; [exact Hc|]. split; [apply lookup_insert_eq|done].
  - intros ths Hs.
    unfold scheduler.connect_list, scheduler.on_chans, scheduler.on_self.
    run_eff. rewrite Hs. simpl. rewrite Hs.
    eexists. split; [reflexivity|]. unfold sp_copy.
    destruct (channel_closer.reference_counter closer) as [a|]; [|done].
    destruct (scheduler.chans w !! a) as [cb|] eqn:Ha; [|done].
    rewrite fmap_insert. simpl. apply insert_id.
    by rewrite lookup_fmap, Ha.
Qed.

(** X9 at work on a halted scheduler with two threads to connect: the
    channel behind the closer was open and is closed afterwards. *)
Lemma X9_connect_list_witness :
  let st := new_channel_state (T := nat) false in
  let h : heap nat := {[0 := mk_block 2 st]} in
  let c := channel_closer.mk (Some 0) in
  let w := scheduler.mk_world (scheduler.mk [] [] true) h [] in
  is_closed_v st = false ∧
  scheduler.connect_list [Some 3; Some 5] c w
  = (Ret [None; None],
     scheduler.mk_world (scheduler.mk [] [] true)
       (<[0 := mk_block 2
                 (mk_state false true (forward_list.singleton None) (At 0))]>
          h)
       [3; 5]) ∧
  closer_closed
    (scheduler.chans (scheduler.connect_list [Some 3; Some 5] c w).2) c.
Proof.
  split; [reflexivity|].
  exact (proj1 (X9_connect_list (channel_closer.mk (Some 0))
           (scheduler.mk_world (scheduler.mk [] [] true)
              {[0 := mk_block 2 (new_channel_state (T := nat) false)]} []))
           [3; 5] 0 (mk_block 2 (new_channel_state false))
           eq_refl eq_refl eq_refl).
Defined.

(** X10. Halting is terminal.  [halt] leaves the scheduler halted whatever
    its closers do, and [connect], the list [connect] and [wait] never
    change [is_closed_v], whether they return, throw or stay suspended:
    no operation makes a halted scheduler run again. *)
Theorem X10_halted_is_terminal {T} (w : scheduler.world T) :
  scheduler.is_closed_v (scheduler.self (scheduler.halt w).2) = true ∧
  (∀ by_move th closer,
     scheduler.is_closed_v
       (scheduler.self (scheduler.connect by_move th closer w).2)
     = scheduler.is_closed_v (scheduler.self w)) ∧
  (∀ ths closer,
     scheduler.is_closed_v
       (scheduler.self (scheduler.connect_list ths closer w).2)
     = scheduler.is_closed_v (scheduler.self w)) ∧
  scheduler.is_closed_v (scheduler.self (scheduler.wait w).2)
  = scheduler.is_closed_v (scheduler.self w).
Proof.
  split; [|split; [|split]].
  - unfold scheduler.halt, scheduler.on_self. run_eff. simpl.
    set (w1 := scheduler.mk_world _ _ _).
    destruct (close_all_frame (scheduler.closers (scheduler.self w)) w1)
      as [Hself _].
    destruct (scheduler.close_all _ w1) as [[] w2]; simpl in *;
      by rewrite Hself.
  - intros by_move th closer.
    unfold scheduler.connect, scheduler.on_chans, scheduler.on_self,
      scheduler.join.
    run_eff. destruct (scheduler.is_closed_v (scheduler.self w)) eqn:Hs.
    + destruct (channel_closer.close closer (scheduler.chans w))
        as [[] h1]; simpl; try done. by destruct th.
    + by destruct by_move.
  - intros ths closer.
    unfold scheduler.connect_list, scheduler.on_chans, scheduler.on_self.
    run_eff. destruct (scheduler.is_closed_v (scheduler.self w)) eqn:Hs.
    + destruct (channel_closer.close closer (scheduler.chans w))
        as [[] h1]; simpl; try done.
      by rewrite join_all_flag.
    + done.
  - unfold scheduler.wait. run_eff.
    destruct (scheduler.is_closed_v (scheduler.self w)) eqn:Hs; [|done].
    by rewrite join_stored_flag.
Qed.

(** X11. A whole shutdown.  On a running scheduler whose closers are live
    and whose stored threads are joinable, connecting one more thread with
    a live closer, then [halt], then [wait] returns normally: the scheduler
    is halted, the channel behind every closer, the new one included, is
    closed, and every thread has been joined exactly once, the newly
    connected one first, and is left not joinable. *)
Theorem X11_connect_halt_wait {T} (by_move : bool) (w : scheduler.world T)
    (i : nat) (ids : list nat) (closer : channel_closer.t) :
  scheduler.is_closed_v (scheduler.self w) = false →
  scheduler.threads (scheduler.self w) = Some <$> ids →
  Forall (closer_live (scheduler.chans w))
         (closer :: scheduler.closers (scheduler.self w)) →
  ∃ h',
    (_ ← scheduler.connect by_move (Some i) closer;
     _ ← scheduler.halt;
     scheduler.wait) w
    = (Ret tt,
       scheduler.mk_world
         (scheduler.mk (closer :: scheduler.closers (scheduler.self w))
                       (replicate (S (length ids)) None) true)
         h' (scheduler.joined w ++ i :: ids)) ∧
    ∀ c, c ∈ closer :: scheduler.closers (scheduler.self w) →
         closer_closed h' c.
Proof.
  intros Hs Hth Hlive.
  destruct (connect_running by_move (Some i) closer w Hs)
    as (h1 & Hconn & Hobj).
  assert (Hlive1 : Forall (closer_live h1)
                     (closer :: scheduler.closers (scheduler.self w))).
  { eapply Forall_impl; [exact Hlive|]. intros c (a & Hc & Ha).
    exists a. split; [done|].
    apply (f_equal (λ m, m !! a)) in Hobj. rewrite !lookup_fmap in Hobj.
    destruct Ha as [cb Ha]. rewrite Ha in Hobj.
    destruct (h1 !! a); [by eexists|done]. }
  run_eff. rewrite Hconn.
  set (w1 := scheduler.mk_world _ h1 _).
  destruct (halt_live w1 Hlive1) as (h' & Hhalt & Hcb).
  rewrite Hhalt. set (w2 := scheduler.mk_world _ h' _).
  rewrite (wait_halted w2 (i :: ids)); [|done|by simpl; rewrite Hth].
  exists h'. split; [done|].
  intros c Hin. eapply closed_behind_closed; [exact Hcb|done|].
    rewrite Forall_forall in Hlive1. by apply Hlive1.
Qed.

(** X11 at work: one stored thread, one stored closer, one more of each
    connected before the shutdown. *)
Lemma X11_connect_halt_wait_witness :
  let st := new_channel_state (T := nat) false in
  let h : heap nat := {[0 := mk_block 2 st; 1 := mk_block 2 st]} in
  let c0 := channel_closer.mk (Some 0) in
  let c1 := channel_closer.mk (Some 1) in
  let w := scheduler.mk_world (scheduler.mk [c0] [Some 4] false) h [] in
  ∃ h',
    (_ ← scheduler.connect true (Some 6) c1;
     _ ← scheduler.halt;
     scheduler.wait) w
    = (Ret tt,
       scheduler.mk_world (scheduler.mk [c1; c0] [None; None] true) h' [6; 4])
    ∧ closer_closed h' c0 ∧ closer_closed h' c1.
Proof.
  intros st h c0 c1 w.
  destruct (X11_connect_halt_wait true w 6 [4] c1 eq_refl eq_refl)
    as (h' & Hrun & Hcl).
  { repeat constructor.
    - exists 1. split; [done|]. vm_compute. by eexists.
    - exists 0. split; [done|]. vm_compute. by eexists. }
  exists h'. split; [exact Hrun|]. split; apply Hcl.
  - apply list_elem_of_further, list_elem_of_here.
  - apply list_elem_of_here.
Defined.

(** ** Channels, closers and their shared state *)

Section ownership_facts.
Context {T : Type}.
Implicit Types (h : heap T) (cb : control_block T).

Lemma fresh_free h : h !! fresh (dom h) = None.
Proof. apply not_elem_of_dom, is_fresh. Qed.

Lemma get_closer_live (ch : channel.t) h a cb :
  channel.state ch = Some a → h !! a = Some cb →
  channel.get_closer ch h
  = (Ret (channel_closer.mk (Some a)),
     <[a := mk_block (S (use_count cb)) (obj cb)]> h).
Proof.
  intros Hst Ha. unfold channel.get_closer, channel_closer.ctor. run_eff.
  rewrite Hst. unfold sp_copy. rewrite Ha.
  rewrite (with_state_live _ _ _ _ (lookup_insert_eq _ _ _)).
  cbn [fst snd obj use_count]. by rewrite insert_insert_eq.
Qed.

Lemma release_shared a c (st : channel_state T) h :
  sp_release (Some a) (<[a := mk_block (S (S c)) st]> h)
  = <[a := mk_block (S c) st]> h.
Proof.
  unfold sp_release. rewrite lookup_insert_eq. simpl.
  by rewrite insert_insert_eq.
Qed.

Lemma release_last a (st : channel_state T) h :
  h !! a = None → sp_release (Some a) (<[a := mk_block 1 st]> h) = h.
Proof.
  intros Ha. unfold sp_release. rewrite lookup_insert_eq. simpl.
  by rewrite delete_insert_id.
Qed.

End ownership_facts.

(** X12. A closer can always be had, and closes the channel for everyone.
    [get_closer] returns normally on any live channel, open or closed
    (unlike [get_sender] it does not test [is_closed_v]), and takes a share
    in the state.  Once that closer has closed the channel, [get_sender]
    on the channel throws [channel_already_closed], and [get_receiver]
    throws too ([receiver_already_retrived] if there is a receiver,
    [channel_already_closed] otherwise). *)
Theorem X12_closer_closes_for_all {T} (ch : channel.t) (h : heap T)
    (a : nat) (cb : control_block T) :
  channel.state ch = Some a → h !! a = Some cb →
  channel.get_closer ch h
  = (Ret (channel_closer.mk (Some a)),
     <[a := mk_block (S (use_count cb)) (obj cb)]> h) ∧
  (c ← channel.get_closer ch;
   _ ← channel_closer.close c;
   channel.get_sender ch) h
  = (Throw channel_already_closed,
     <[a := mk_block (S (use_count cb)) (close_body (obj cb)).2]> h) ∧
  ((c ← channel.get_closer ch;
    _ ← channel_closer.close c;
    channel.get_receiver ch) h).1
  = Throw (if has_receiver_v (obj cb) then receiver_already_retrived
           else channel_already_closed).
Proof.
  intros Hst Ha.
  pose proof (get_closer_live ch h a cb Hst Ha) as Hgc.
  split; [exact Hgc|].
  set (h1 := <[a := mk_block (S (use_count cb)) (obj cb)]> h) in *.
  assert (Hcl : channel_closer.close (channel_closer.mk (Some a)) h1
                = (Ret NotifyAll,
                   <[a := mk_block (S (use_count cb))
                            (close_body (obj cb)).2]> h)).
  { unfold channel_closer.close. cbn [channel_closer.reference_counter].
    unfold h1.
    rewrite (with_state_live _ _ _ _ (lookup_insert_eq _ _ _)).
    cbn [obj use_count fst snd]. by rewrite insert_insert_eq. }
  split.
  - run_eff. rewrite Hgc, Hcl. unfold channel.get_sender. rewrite Hst.
    rewrite (sender_ctor_live a
               (mk_block (S (use_count cb)) (close_body (obj cb)).2) _
               (lookup_insert_eq _ _ _)) by (simpl; lia).
    done.
  - run_eff. rewrite Hgc, Hcl. unfold channel.get_receiver. rewrite Hst.
    rewrite (receiver_ctor_live a
               (mk_block (S (use_count cb)) (close_body (obj cb)).2) _
               (lookup_insert_eq _ _ _)) by (simpl; lia).
    simpl. by destruct (has_receiver_v (obj cb)).
Qed.

(** X12 at work on an open channel without a receiver. *)
Lemma X12_closer_closes_for_all_witness :
  let st := new_channel_state (T := nat) false in
  let h : heap nat := {[0 := mk_block 1 st]} in
  (c ← channel.get_closer (channel.mk (Some 0));
   _ ← channel_closer.close c;
   channel.get_sender (channel.mk (Some 0))) h
  = (Throw channel_already_closed,
     <[0 := mk_block 2 (close_body st).2]> h).
Proof.
  exact (proj1 (proj2 (X12_closer_closes_for_all (channel.mk (Some 0))
           {[0 := mk_block 1 (new_channel_state (T := nat) false)]} 0
           (mk_block 1 (new_channel_state false)) eq_refl eq_refl))).
Defined.

(** X13. A closer keeps the channel state alive.  A channel dropped with
    no other handle frees its state, and the heap is as before the channel
    was made; with a closer taken first, the state survives the channel
    with one owner left, and the closer's [close] is still defined and
    closes it: the surviving state has [is_closed_v] set (it was unset) and
    is otherwise the state the channel was made with. *)
Theorem X13_closer_keeps_state_alive {T} (storage : bool) (h : heap T) :
  (ch ← channel.ctor storage;
   modify (sp_release (channel.state ch))) h
  = (Ret tt, h) ∧
  is_closed_v (new_channel_state (T := T) storage) = false ∧
  (ch ← channel.ctor storage;
   c ← channel.get_closer ch;
   _ ← modify (sp_release (channel.state ch));
   channel_closer.close c) h
  = (Ret NotifyAll,
     <[fresh (dom h) :=
         mk_block 1 (mk_state storage true (forward_list.singleton None)
                              (At 0))]> h) ∧
  closer_closed
    ((ch ← channel.ctor storage;
      c ← channel.get_closer ch;
      _ ← modify (sp_release (channel.state ch));
      channel_closer.close c) h).2
    (channel_closer.mk (Some (fresh (dom h)))).
Proof.
  assert (Hrun :
    (ch ← channel.ctor storage;
     c ← channel.get_closer ch;
     _ ← modify (sp_release (channel.state ch));
     channel_closer.close c) h
    = (Ret NotifyAll,
       <[fresh (dom h) :=
           mk_block 1 (mk_state storage true (forward_list.singleton None)
                                (At 0))]> h)).
  { unfold channel.ctor, make_shared. run_eff.
    rewrite (get_closer_live (channel.mk (Some (fresh (dom h)))) _
               (fresh (dom h)) (mk_block 1 (new_channel_state storage))
               eq_refl (lookup_insert_eq _ _ _)).
    cbn [channel.state use_count obj].
    rewrite insert_insert_eq, release_shared.
    unfold channel_closer.close. cbn [channel_closer.reference_counter].
    rewrite (with_state_live _ _ _ _ (lookup_insert_eq _ _ _)).
    cbn [obj use_count fst snd]. by rewrite insert_insert_eq. }
  split; [|split; [done|split; [exact Hrun|]]].
  - unfold channel.ctor, make_shared. run_eff. cbn [channel.state].
    by rewrite (release_last _ _ _ (fresh_free h)).
  - rewrite Hrun. cbn [snd]. eexists _, _. split; [reflexivity|].
    split; [apply lookup_insert_eq|done].
Qed.

Section make_channel_facts.
Context {T : Type}.
Implicit Types (h : heap T).

(** The state both handles of a new pair share. *)
Lemma make_channel_ok h :
  make_channel false h
  = (Ret (sender.mk (Some (fresh (dom h))),
          receiver.mk (Some (fresh (dom h))) (At 0)),
     <[fresh (dom h) :=
         mk_block 2 (mk_state true false (forward_list.singleton None)
                              (At 0))]> h).
Proof.
  unfold make_channel, channel.ctor, make_shared. run_eff.
  unfold channel.get_sender, channel.get_receiver. cbn [channel.state].
  rewrite (sender_ctor_live _ (mk_block 1 (new_channel_state false)) _
             (lookup_insert_eq _ _ _)) by (simpl; lia).
  cbn [obj use_count new_channel_state is_closed_v sender.state].
  rewrite insert_insert_eq.
  rewrite (receiver_ctor_live _ (mk_block 2 (new_channel_state false)) _
             (lookup_insert_eq _ _ _)) by (simpl; lia).
  cbn [obj use_count new_channel_state is_closed_v has_receiver_v data last].
  by rewrite insert_insert_eq, release_shared.
Qed.

End make_channel_facts.

(** X14. [make_channel] shares and cleans up.  On well-initialised storage
    it returns a sender and a receiver that share one new channel state
    with exactly two owners (the local channel's share is given back), the
    receiver registered, the channel open and the cursor on the sentinel;
    the rest of the heap is untouched.  When the receiver cannot be built
    (the flag started set) the exception leaves the heap exactly as it
    was: the sender and the channel state are released again. *)
Theorem X14_make_channel_shares_and_cleans_up {T} (h : heap T) :
  make_channel false h
  = (Ret (sender.mk (Some (fresh (dom h))),
          receiver.mk (Some (fresh (dom h))) (At 0)),
     <[fresh (dom h) :=
         mk_block 2 (mk_state true false (forward_list.singleton None)
                              (At 0))]> h) ∧
  make_channel true h = (Throw receiver_already_retrived, h).
Proof.
  split; [apply make_channel_ok|].
  unfold make_channel, channel.ctor, make_shared. run_eff.
  unfold channel.get_sender, channel.get_receiver. cbn [channel.state].
  rewrite (sender_ctor_live _ (mk_block 1 (new_channel_state true)) _
             (lookup_insert_eq _ _ _)) by (simpl; lia).
  cbn [obj use_count new_channel_state is_closed_v sender.state].
  rewrite insert_insert_eq.
  rewrite (receiver_ctor_live _ (mk_block 2 (new_channel_state true)) _
             (lookup_insert_eq _ _ _)) by (simpl; lia).
  cbn [obj use_count new_channel_state is_closed_v has_receiver_v].
  by rewrite release_shared, (release_last _ _ _ (fresh_free h)).
Qed.

#[local] Arguments with_state : simpl never.

(** X15. First in, first out through the handles.  With the pair from
    [make_channel]: two values pushed through the sender come back from two
    [next] calls on the receiver in push order, and [operator*] then shows
    the second; [next] on the pair as made stays suspended; and when the
    sender closes after pushing, [next] throws [close_channel] although the
    value is in the queue. *)
Theorem X15_pair_round_trip {T} (x y : T) (h : heap T) :
  ((p ← make_channel false;
    _ ← sender.push p.1 x;
    _ ← sender.push p.1 y;
    '(v1, r1) ← receiver.next p.2;
    '(v2, r2) ← receiver.next r1;
    o ← receiver.peek r2;
    mret (v1, v2, o)) h).1 = Ret (x, y, Some y) ∧
  ((p ← make_channel false; receiver.next p.2) h).1 = Blocked ∧
  ((p ← make_channel false;
    _ ← sender.push p.1 x;
    _ ← sender.close p.1;
    receiver.next p.2) h).1 = Throw close_channel.
Proof.
  assert (Hlive : ∀ (c : nat) (st : channel_state T) A
                    (f : eff (channel_state T) A),
            with_state (Some (fresh (dom h))) f
              (<[fresh (dom h) := mk_block c st]> h)
            = ((f st).1, <[fresh (dom h) := mk_block c (f st).2]> h)).
  { intros c st A f.
    rewrite (with_state_live _ _ _ _ (lookup_insert_eq _ _ _)).
    cbn [obj use_count]. by rewrite insert_insert_eq. }
  split; [|split]; run_eff; rewrite make_channel_ok;
    unfold sender.push, sender.close, receiver.next, receiver.peek;
    run_eff; cbn [fst snd sender.state receiver.state receiver.iterator];
    repeat (rewrite Hlive; simpl); done.
Qed.

(** X16. One cursor behind a shared receiver.  With the pair from
    [make_channel(with_shared_receiver)], whose receiver lives in the
    store of shared receivers: two values pushed through the sender come
    back in push order from two [next] calls on the same shared handle,
    neither value twice, and [operator*] through the handle then shows the
    second. *)
Theorem X16_shared_receiver_round_trip {T} (x y : T)
    (rs : shared_receiver.store) (h : heap T) :
  make_channel_shared false (rs, h)
  = (Ret (sender.mk (Some (fresh (dom h))),
          shared_receiver.mk (Some (fresh (dom rs)))),
     (<[fresh (dom rs) := receiver.mk (Some (fresh (dom h))) (At 0)]> rs,
      <[fresh (dom h) :=
          mk_block 2 (mk_state true false (forward_list.singleton None)
                               (At 0))]> h)) ∧
  ((p ← make_channel_shared false;
    _ ← shared_receiver.on_heap (sender.push p.1 x);
    _ ← shared_receiver.on_heap (sender.push p.1 y);
    v1 ← shared_receiver.next p.2;
    v2 ← shared_receiver.next p.2;
    o ← shared_receiver.peek p.2;
    mret (v1, v2, o)) (rs, h)).1 = Ret (x, y, Some y).
Proof.
  assert (Hlive : ∀ (c : nat) (st : channel_state T) A
                    (f : eff (channel_state T) A),
            with_state (Some (fresh (dom h))) f
              (<[fresh (dom h) := mk_block c st]> h)
            = ((f st).1, <[fresh (dom h) := mk_block c (f st).2]> h)).
  { intros c st A f.
    rewrite (with_state_live _ _ _ _ (lookup_insert_eq _ _ _)).
    cbn [obj use_count]. by rewrite insert_insert_eq. }
  assert (Hmk : make_channel_shared false (rs, h)
    = (Ret (sender.mk (Some (fresh (dom h))),
            shared_receiver.mk (Some (fresh (dom rs)))),
       (<[fresh (dom rs) := receiver.mk (Some (fresh (dom h))) (At 0)]> rs,
        <[fresh (dom h) :=
            mk_block 2 (mk_state true false (forward_list.singleton None)
                                 (At 0))]> h))).
  { unfold make_channel_shared, shared_receiver.on_heap, on_store, share,
      shared_receiver.ctor, channel.ctor, make_shared.
    run_eff. unfold channel.get_sender, channel.get_receiver.
    cbn [fst snd channel.state].
    rewrite (sender_ctor_live _ (mk_block 1 (new_channel_state false)) _
               (lookup_insert_eq _ _ _)) by (simpl; lia).
    cbn [obj use_count new_channel_state is_closed_v sender.state fst snd].
    rewrite insert_insert_eq.
    rewrite (receiver_ctor_live _ (mk_block 2 (new_channel_state false)) _
               (lookup_insert_eq _ _ _)) by (simpl; lia).
    cbn [obj use_count new_channel_state is_closed_v has_receiver_v data last
         fst snd receiver.state receiver.iterator].
    change (sp_release None ?m) with m.
    by rewrite insert_insert_eq, release_shared. }
  split; [exact Hmk|].
  run_eff. rewrite Hmk.
  unfold shared_receiver.next, shared_receiver.peek, shared_receiver.pointee,
    shared_receiver.on_heap, sender.push, receiver.next, receiver.peek.
  run_eff.
  cbn [fst snd sender.state receiver.state receiver.iterator
       shared_receiver.receiver_].
  repeat (first [rewrite Hlive | rewrite lookup_insert_eq]; simpl).
  done.
Qed.

Section more_executions_2.
Context {T : Type}.
Import interleaving invariant.

(** On a channel closed with [has_receiver_v] unset, no step registers a
    receiver, and both flags stay as they are. *)
Lemma closed_unregistered_step (e : event T) w :
  world_ok w →
  is_closed_v (shared w) = true → has_receiver_v (shared w) = false →
  registrations [e] [(step e w).1] = [] ∧
  has_receiver_v (shared (step e w).2) = false ∧
  handles (step e w).2 = handles w.
Proof.
  intros Hok Hcl Hr. destruct e as [x| | |k|k|k|k].
  - by rewrite step_push_dropped.
  - done.
  - simpl. unfold sender_body. by rewrite Hcl.
  - done.
  - destruct (pending w !! k) as [it|] eqn:Hk.
    + destruct (step_register_cases k it w Hok Hk)
        as [(? & _)|[(_ & _ & ->)|(_ & ? & _)]]; [congruence|done|congruence].
    + simpl. by rewrite Hk.
  - assert (handles w !! k = None) as Hk.
    { destruct (handles w !! k) as [it|] eqn:Hk; [|done].
      destruct Hok as (_ & Hh & _). destruct (Hh k it Hk) as (_ & ? & _).
      congruence. }
    simpl. by rewrite Hk.
  - assert (handles w !! k = None) as Hk.
    { destruct (handles w !! k) as [it|] eqn:Hk; [|done].
      destruct Hok as (_ & Hh & _). destruct (Hh k it Hk) as (_ & ? & _).
      congruence. }
    simpl. by rewrite Hk.
Qed.

Lemma closed_unregistered_run (tr : list (event T)) : ∀ w,
  world_ok w →
  is_closed_v (shared w) = true → has_receiver_v (shared w) = false →
  registrations tr (run tr w).1 = [] ∧ handles (run tr w).2 = handles w.
Proof.
  induction tr as [|e tr IH]; intros w Hok Hcl Hr; [done|].
  rewrite run_cons. cbn [fst snd]. rewrite registrations_cons.
  destruct (closed_unregistered_step e w Hok Hcl Hr) as (-> & Hr1 & Hh1).
  destruct (step e w) as [o w1] eqn:Hs.
  destruct (step_ok e w o w1 Hok Hs) as (Hok1 & _ & _ & Hcl1 & _).
  cbn [fst snd] in *.
  destruct (IH w1 Hok1 (Hcl1 Hcl) Hr1) as [-> ->]. by rewrite Hh1.
Qed.

End more_executions_2.

(** X17. [push] cannot fail and does not wait.  In every reachable state a
    [push] returns normally: with [has_receiver_v] set it appends one slot
    and issues [notify_one], with the flag unset it appends nothing and
    signals nothing; in both cases [is_closed_v] is left as it was. *)
Theorem X17_push_always_returns {T} (storage : bool)
    (tr : list (interleaving.event T)) (x : T) :
  let w := (interleaving.run tr (interleaving.init storage)).2 in
  let r := interleaving.step (interleaving.Push x) w in
  r.1 = interleaving.Done
          (if has_receiver_v (interleaving.shared w) then NotifyOne
           else NoSignal) ∧
  forward_list.size (data (interleaving.shared r.2))
  = forward_list.size (data (interleaving.shared w))
    + (if has_receiver_v (interleaving.shared w) then 1 else 0) ∧
  is_closed_v (interleaving.shared r.2)
  = is_closed_v (interleaving.shared w).
Proof.
  intros w r. pose proof (reachable_ok storage tr) as Hok. fold w in Hok.
  destruct (has_receiver_v (interleaving.shared w)) eqn:Hr.
  - destruct (step_push_appended x w Hok Hr)
      as (w1 & Hs & _ & _ & _ & Hsz & _ & _ & Hcl).
    unfold r. rewrite Hs. cbn [fst snd]. rewrite Hsz. split; [done|].
    split; [lia|done].
  - unfold r. rewrite (step_push_dropped x w Hr). cbn [fst snd].
    split; [done|]. split; [lia|done].
Qed.

(** X18. A channel closed before it had a receiver never gets one.  From a
    reachable state with [is_closed_v] set and [has_receiver_v] unset, no
    receiver constructor of any later execution returns normally, and no
    receiver exists afterwards. *)
Theorem X18_closed_channel_gets_no_receiver {T} (storage : bool)
    (tr tr' : list (interleaving.event T)) :
  let w := (interleaving.run tr (interleaving.init storage)).2 in
  is_closed_v (interleaving.shared w) = true →
  has_receiver_v (interleaving.shared w) = false →
  registrations tr' (interleaving.run tr' w).1 = [] ∧
  interleaving.handles (interleaving.run tr' w).2 = ∅.
Proof.
  intros w Hcl Hr. pose proof (reachable_ok storage tr) as Hok.
  fold w in Hok.
  destruct (closed_unregistered_run tr' w Hok Hcl Hr) as [Hreg Hh].
  split; [done|]. rewrite Hh. apply map_eq. intros k. rewrite lookup_empty.
  destruct (interleaving.handles w !! k) as [it|] eqn:Hk; [|done].
  destruct Hok as (_ & Hhs & _). destruct (Hhs k it Hk) as (_ & ? & _).
  congruence.
Qed.

(** X18 at work: a constructor that took its snapshot before the close,
    and one that starts after it. *)
Lemma X18_closed_channel_gets_no_receiver_witness :
  let tr := [interleaving.Snapshot 0; interleaving.Close] in
  let tr' := [interleaving.Register 0; interleaving.Snapshot 1;
              interleaving.Register 1] in
  let w := (interleaving.run tr (interleaving.init (T := nat) false)).2 in
  is_closed_v (interleaving.shared w) = true ∧
  has_receiver_v (interleaving.shared w) = false ∧
  registrations tr' (interleaving.run tr' w).1 = [].
Proof.
  split; [vm_compute; reflexivity|]. split; [vm_compute; reflexivity|].
  exact (proj1 (X18_closed_channel_gets_no_receiver (T := nat) false
           [interleaving.Snapshot 0; interleaving.Close]
           [interleaving.Register 0; interleaving.Snapshot 1;
            interleaving.Register 1] eq_refl eq_refl)).
Defined.

(** X19. The second [get_receiver].  On a channel made on well-initialised
    storage, the first [get_receiver] returns a receiver and the second
    throws [receiver_already_retrived]; the failed constructor gives its
    share in the state back, so the state is left with its two owners, the
    channel and the first receiver. *)
Theorem X19_second_get_receiver_throws {T} (h : heap T) :
  (ch ← channel.ctor false;
   _ ← channel.get_receiver ch;
   channel.get_receiver ch) h
  = (Throw receiver_already_retrived,
     <[fresh (dom h) :=
         mk_block 2 (mk_state true false (forward_list.singleton None)
                              (At 0))]> h).
Proof.
  unfold channel.ctor, make_shared, channel.get_receiver. run_eff.
  cbn [channel.state].
  rewrite (receiver_ctor_live _ (mk_block 1 (new_channel_state false)) _
             (lookup_insert_eq _ _ _)) by (simpl; lia).
  cbn [obj use_count new_channel_state is_closed_v has_receiver_v data last].
  rewrite insert_insert_eq.
  by rewrite (receiver_ctor_live _ _ _ (lookup_insert_eq _ _ _))
    by (simpl; lia).
Qed.

(** X2 at work: two constructors take their snapshots, the first one
    registers, the second one is refused. *)
Lemma X2_single_receiver_witness :
  let tr := [interleaving.Snapshot 0; interleaving.Snapshot 1;
             interleaving.Register 0] in
  let w := (interleaving.run tr (interleaving.init (T := nat) false)).2 in
  is_Some (interleaving.handles w !! 0) ∧
  is_Some (interleaving.pending w !! 1) ∧
  (interleaving.step (interleaving.Register 1) w).1
  = interleaving.Threw receiver_already_retrived.
Proof.
  assert (H0 : is_Some (interleaving.handles
                 (interleaving.run
                    [interleaving.Snapshot 0; interleaving.Snapshot 1;
                     interleaving.Register 0]
                    (interleaving.init (T := nat) false)).2 !! 0))
    by (vm_compute; by eexists).
  assert (H1 : is_Some (interleaving.pending
                 (interleaving.run
                    [interleaving.Snapshot 0; interleaving.Snapshot 1;
                     interleaving.Register 0]
                    (interleaving.init (T := nat) false)).2 !! 1))
    by (vm_compute; by eexists).
  split; [exact H0|]. split; [exact H1|].
  by rewrite (proj2 (proj2 (X2_single_receiver (T := nat) false
                [interleaving.Snapshot 0; interleaving.Snapshot 1;
                 interleaving.Register 0])) 0 1 H0 H1).
Defined.
